(** * Indexing service: query engine, provider results, advert store

    A shallow embedding of the Go sources

      - pkg/service/service.go            (jobs, job keys, the job handler, Query)
      - pkg/providerresults               (Equals on provider results)
      - pkg/service/providerindex/publisher/store.go  (the Entries iterator)

    Byte slices are [list byte], Go strings are [string], Go maps are
    stdpp finite maps, pointers that may be nil are [option]. *)

From Stdlib Require Import Strings.String Strings.Byte Strings.Ascii.
From Stdlib Require Import NArith List Lia.
From stdpp Require Import base decidable countable gmap strings list fin_maps.
Import ListNotations.

Local Open Scope string_scope.
Local Open Scope list_scope.
Local Open Scope stdpp_scope.

(** ** Bytes *)

#[global] Instance byte_eq_dec : EqDecision byte := Byte.byte_eq_dec.

#[global] Program Instance byte_countable : Countable byte :=
  inj_countable Byte.to_N Byte.of_N _.
Next Obligation. intros x. apply Byte.of_to_N. Qed.

(** [bytes.Equal]: a nil slice and an empty slice are equal, both are []. *)
Definition bytes_Equal (a b : list byte) : bool := bool_decide (a = b).

(** The conversion [string(b)] of a byte slice. *)
Definition string_of_bytes (b : list byte) : string := string_of_list_byte b.

(** ** go-multihash, go-cid, peer, url: the data the service passes around *)

Definition Multihash := list byte.

(** [cid.Cid]: version, codec and multihash. *)
Record Cid := mkCid { cid_version : N; cid_codec : N; cid_hash : Multihash }.

Definition cid_Raw : N := 0x55%N.
Definition NewCidV1 (codec : N) (mh : Multihash) : Cid := mkCid 1 codec mh.

#[global] Instance Cid_eq_dec : EqDecision Cid.
Proof. solve_decision. Defined.

#[global] Program Instance Cid_countable : Countable Cid :=
  inj_countable (fun c => (cid_version c, cid_codec c, cid_hash c))
                (fun t => Some (mkCid t.1.1 t.1.2 t.2)) _.
Next Obligation. by intros []. Qed.

(** [peer.AddrInfo]: a peer id and its multiaddrs (each in its byte form). *)
Record AddrInfo := mkAddrInfo { ID : string; Addrs : list (list byte) }.

#[global] Instance AddrInfo_eq_dec : EqDecision AddrInfo.
Proof. solve_decision. Defined.

(** [url.URL], as far as the service builds one. *)
Record URL := mkURL { Scheme : string; Host : string; Path : string }.
Definition zeroURL : URL := mkURL "" "" "".

#[global] Instance URL_eq_dec : EqDecision URL.
Proof. solve_decision. Defined.

(** [model.ProviderResult] of go-libipni. *)
Record ProviderResult := mkProviderResult {
  ContextID : list byte;
  Metadata : list byte;
  Provider : option AddrInfo
}.

#[global] Instance ProviderResult_eq_dec : EqDecision ProviderResult.
Proof. solve_decision. Defined.

(** Go [error] values, by their message. *)
Definition error := string.

(** ** pkg/providerresults *)

Module providerresults.
Section providerresults.

(** [peer.AddrInfo.String], the rendering of libp2p. *)
Variable AddrInfo_String : AddrInfo -> string.

Definition equalProvider (a b : option AddrInfo) : bool :=
  match a with
  | None => bool_decide (b = None)
  | Some a' =>
      match b with
      | None => false
      | Some b' => String.eqb (AddrInfo_String a') (AddrInfo_String b')
      end
  end.

(** [Equals] compares two provider results. *)
Definition Equals (a b : ProviderResult) : bool :=
  bytes_Equal (ContextID a) (ContextID b)
  && bytes_Equal (Metadata a) (Metadata b)
  && equalProvider (Provider a) (Provider b).

End providerresults.
End providerresults.

(** ** pkg/service/providerindex/publisher: the advert store *)

Module publisher.

(** [schema.EntryChunk] of go-libipni: the multihashes of one chunk and
    the link to the next chunk, nil at the end of the chain. *)
Record EntryChunk (Link : Type) := mkEntryChunk {
  Entries_ : list Multihash;
  Next : option Link
}.
Arguments mkEntryChunk {Link} _ _.
Arguments Entries_ {Link} _.
Arguments Next {Link} _.

Section publisher.

(** [ipld.Link] with its [String] method, the helper [asCID], datastore keys
    ([datastore.NewKey], [Key.ChildString]), one snapshot of the datastore
    behind [ds.Get], and [schema.BytesToEntryChunk]. *)
Context {Link Key : Type}.
Variable Link_String : Link -> string.
Variable asCID : Link -> Cid.
Variable NewKey : string -> Key.
Variable ChildString : Key -> string -> Key.
Variable ds_Get : Key -> error + list byte.
Variable BytesToEntryChunk : Cid -> list byte -> error + EntryChunk Link.

Definition linksCachePath : Key := NewKey "/cache/links".

(** A consumer of an [iter.Seq2[multihash.Multihash, error]]: the [yield]
    callback with the state [S] it closes over; it returns false to stop the
    iteration. A nil multihash is the empty slice. *)
Definition Yield (S : Type) := Multihash -> option error -> S -> S * bool.

(** [for _, d := range ent.Entries { if !yield(d, nil) { return } }]:
    the boolean tells whether the loop ran to its end. *)
Fixpoint yieldEntries {S} (ents : list Multihash) (yield : Yield S) (s : S) : S * bool :=
  match ents with
  | [] => (s, true)
  | d :: rest =>
      let '(s', more) := yield d None s in
      if more then yieldEntries rest yield s' else (s', false)
  end.

(** The body of the iterator returned by [Entries], [for cur != nil { ... }];
    [fuel] bounds the number of chunks visited and [None] is a loop that has not
    ended within it. *)
Fixpoint Entries_from {S} (fuel : nat) (cur : option Link) (yield : Yield S) (s : S) : option S :=
  match cur with
  | None => Some s
  | Some c =>
      match fuel with
      | O => None
      | Datatypes.S fuel' =>
          match ds_Get (ChildString linksCachePath (Link_String c)) with
          | inl err => Some (fst (yield [] (Some err) s))
          | inr v =>
              match BytesToEntryChunk (asCID c) v with
              | inl err => Some (fst (yield [] (Some err) s))
              | inr ent =>
                  let '(s', more) := yieldEntries (Entries_ ent) yield s in
                  if more then Entries_from fuel' (Next ent) yield s' else Some s'
              end
          end
      end
  end.

Definition Entries {S} (fuel : nat) (root : option Link) (yield : Yield S) (s : S) : option S :=
  Entries_from fuel root yield s.

(** The consumer that records every pair and never stops. *)
Definition collect : Yield (list (Multihash * option error)) :=
  fun d e acc => (acc ++ [(d, e)], true).

(** Handing a fixed sequence of pairs to a consumer, until it stops. *)
Fixpoint feed {S} (items : list (Multihash * option error)) (yield : Yield S) (s : S) : S :=
  match items with
  | [] => s
  | (d, e) :: rest =>
      let '(s', more) := yield d e s in
      if more then feed rest yield s' else s'
  end.

(** The chain of entry chunks read from [cur]: the chunks decoded in order,
    ending at a nil [Next] (no error) or at the first datastore or decode
    failure. *)
Inductive chain : option Link -> list (EntryChunk Link) -> option error -> Prop :=
| chain_nil : chain None [] None
| chain_get_fails c err :
    ds_Get (ChildString linksCachePath (Link_String c)) = inl err ->
    chain (Some c) [] (Some err)
| chain_decode_fails c v err :
    ds_Get (ChildString linksCachePath (Link_String c)) = inr v ->
    BytesToEntryChunk (asCID c) v = inl err ->
    chain (Some c) [] (Some err)
| chain_cons c v ent chunks fin :
    ds_Get (ChildString linksCachePath (Link_String c)) = inr v ->
    BytesToEntryChunk (asCID c) v = inr ent ->
    chain (Next ent) chunks fin ->
    chain (Some c) (ent :: chunks) fin.

(** What the iterator is to yield along such a chain. *)
Definition yields_of (chunks : list (EntryChunk Link)) (fin : option error)
  : list (Multihash * option error) :=
  map (fun d => (d, None)) (concat (map Entries_ chunks))
  ++ match fin with Some err => [([], Some err)] | None => [] end.

End publisher.
End publisher.

(** ** pkg/service: the query engine *)

Module service.

Definition DID := string.

(** [Match] narrows the parameters of a query. *)
Record Match := mkMatch { Subject : list DID }.

(** [Query] is a query for several multihashes. *)
Record Query := mkQuery { Hashes : list Multihash; Match_ : Match }.

(** A delegation of go-ucanto, by its archive bytes. *)
Definition Delegation := list byte.

(** [metadata.Range]. *)
Record Range := mkRange { Offset : N; Length : option N }.

#[global] Instance Range_eq_dec : EqDecision Range.
Proof. solve_decision. Defined.

(** Modelled from the spec: pkg/blobindex is not among the sources. A shard
    index maps each shard to the multihashes it holds with their position
    (offset, length); it is iterable over shards and a shard supports the
    membership test [Has]. *)
Record Position := mkPosition { pos_offset : N; pos_length : N }.

Record ShardedDagIndexView := mkIndexView {
  Shards : gmap Multihash (gmap Multihash Position)
}.

Definition Has (entries : gmap Multihash Position) (m : Multihash) : bool :=
  bool_decide (is_Some (entries !! m)).

(** [QueryResult] describes the found claims and indexes for a given query. *)
Record QueryResult := mkQueryResult {
  Claims : gmap Cid Delegation;
  Indexes : gmap (list byte) ShardedDagIndexView
}.

(** [multicodec.Code]. *)
Definition Code := N.

(** [providerindex.QueryKey]. *)
Record QueryKey := mkQueryKey {
  Hash : Multihash;
  Spaces : list DID;
  TargetClaims : list Code
}.

(** Modelled from the spec: pkg/metadata is not among the sources. The three
    protocol blocks a provider record carries are the equals claim, the index
    claim and the location commitment, each with the claim cid that
    [GetClaimCid] returns; the fields have the types service.go uses them at.
    [OtherClaimProtocol] stands for any further type with a claim cid, for
    which the handler's type switch has no case, and [NonClaimProtocol] for a
    value that does not implement [metadata.HasClaimCid]. *)
Inductive Protocol :=
| EqualsClaimMetadata (Equals : Cid) (Claim : Cid)
| IndexClaimMetadata (Index : Cid) (Claim : Cid)
| LocationCommitmentMetadata (Shard : option Cid) (Range_ : option Range) (Claim : Cid)
| OtherClaimProtocol (code : Code) (Claim : Cid)
| NonClaimProtocol (code : Code).

(** The type assertion [protocol.(metadata.HasClaimCid)] followed by
    [GetClaimCid]. *)
Definition GetClaimCid (p : Protocol) : option Cid :=
  match p with
  | EqualsClaimMetadata _ c => Some c
  | IndexClaimMetadata _ c => Some c
  | LocationCommitmentMetadata _ _ c => Some c
  | OtherClaimProtocol _ c => Some c
  | NonClaimProtocol _ => None
  end.

(** What service.go takes from pkg/metadata: the three protocol codes and
    the decoding of a record's metadata, [md.UnmarshalBinary] followed by
    [md.Get(code)] for each code of [md.Protocols()], in that order. *)
Record MetadataPkg := mkMetadataPkg {
  EqualsClaimID : Code;
  IndexClaimID : Code;
  LocationCommitmentID : Code;
  UnmarshalBinary : list byte -> error + list Protocol
}.

Definition jobType := string.

Definition standardJobType : jobType := "standard".
Definition locationJobType : jobType := "location".
Definition equalsOrLocationJobType : jobType := "equals_or_location".

Record job := mkjob {
  mh : Multihash;
  indexForMh : option Multihash;
  indexProviderRecord : option ProviderResult;
  j_jobType : jobType
}.

Definition jobKey := string.

Definition key (j : job) : jobKey :=
  let k := String.append (string_of_bytes (mh j)) (j_jobType j) in
  match indexForMh j with
  | Some m => String.append k (string_of_bytes m)
  | None => k
  end.

(** [a] is a proper prefix of [b]. *)
Definition proper_prefix (a b : list byte) : Prop :=
  exists k, k <> [] /\ b = a ++ k.

Definition known_jobType (t : jobType) : Prop :=
  t = standardJobType \/ t = locationJobType \/ t = equalsOrLocationJobType.

(** The tuple a key is meant to identify. *)
Definition same_tuple (j1 j2 : job) : Prop :=
  mh j1 = mh j2 /\ j_jobType j1 = j_jobType j2 /\ indexForMh j1 = indexForMh j2.

(** The bytes of a key after the multihash: the job type, and the multihash the
    index is for when there is one. *)
Definition key_tail (j : job) : list byte :=
  list_byte_of_string (j_jobType j) ++ default [] (indexForMh j).

Definition targetClaims (md : MetadataPkg) : gmap jobType (list Code) :=
  <[standardJobType := [EqualsClaimID md; IndexClaimID md; LocationCommitmentID md]]>
  (<[locationJobType := [LocationCommitmentID md]]>
  (<[equalsOrLocationJobType := [IndexClaimID md; LocationCommitmentID md]]> ∅)).

(** [targetClaims[t]]: a missing key gives the nil slice. *)
Definition targetClaims_at (md : MetadataPkg) (t : jobType) : list Code :=
  default [] (targetClaims md !! t).

Record queryState := mkqueryState {
  q : Query;
  qr : QueryResult;
  visits : gset jobKey
}.

(** The three collaborators of the service, each by its [Find] or
    [LookupClaim] method. A call may depend on, and change, the state of the
    world behind it (caches, the network). *)
Record IndexingService (World : Type) := mkIndexingService {
  blobIndexLookup :
    World -> list byte -> ProviderResult -> URL -> option Range ->
    (error + ShardedDagIndexView) * World;
  claimLookup : World -> Cid -> URL -> (error + Delegation) * World;
  providerIndex : World -> QueryKey -> (error + list ProviderResult) * World
}.
Arguments blobIndexLookup {World} _.
Arguments claimLookup {World} _.
Arguments providerIndex {World} _.

(** The calls a query makes, in order, each with its arguments and result.
    [EvFind] also names the job the handler made the call for. *)
Inductive event :=
| EvFind (j : job) (qk : QueryKey) (res : error + list ProviderResult)
| EvUnmarshal (data : list byte) (res : error + list Protocol)
| EvLookupClaim (claimCid : Cid) (fetchURL : URL) (res : error + Delegation)
| EvBlobFind (contextID : list byte) (provider : ProviderResult) (fetchURL : URL)
    (rng : option Range) (res : error + ShardedDagIndexView)
| EvSpawn (j : job).

(** The state a walk threads through the handler: the world behind the
    collaborators, the shared query state, the queue of jobs still to run
    and the calls made so far. *)
Record St (World : Type) := mkSt {
  world : World;
  qstate : queryState;
  queue : list job;
  trace : list event
}.
Arguments mkSt {World} _ _ _ _.
Arguments world {World} _.
Arguments qstate {World} _.
Arguments queue {World} _.
Arguments trace {World} _.

(** How a piece of handler code ends: normally, with an error it returns, or
    in a panic (a nil pointer dereference). *)
Inductive res (A : Type) :=
| Ok (a : A)
| Err (e : error)
| Panic.
Arguments Ok {A} _.
Arguments Err {A} _.
Arguments Panic {A}.

Definition M (World A : Type) := St World -> res A * St World.

Definition ret {World A} (a : A) : M World A := fun st => (Ok a, st).

Definition bind {World A B} (m : M World A) (k : A -> M World B) : M World B :=
  fun st =>
    match m st with
    | (Ok a, st') => k a st'
    | (Err e, st') => (Err e, st')
    | (Panic, st') => (Panic, st')
    end.

Notation "x <- m ;; k" := (bind m (fun x => k))
  (at level 100, m at next level, right associativity).
Notation "m ;;; k" := (bind m (fun _ => k))
  (at level 100, right associativity).

(** [for _, x := range l { body }] where an error returned by the body leaves
    the loop. *)
Fixpoint forEach {World A} (l : list A) (body : A -> M World unit) : M World unit :=
  match l with
  | [] => ret tt
  | x :: rest => body x ;;; forEach rest body
  end.

(** Dereferencing a pointer: nil panics. *)
Definition deref {World A} (p : option A) : M World A :=
  fun st => match p with Some a => (Ok a, st) | None => (Panic, st) end.

(** Modelled from the spec: pkg/internal/jobwalker is not among the sources.
    [CmpSwap(predicate, update)]: if [predicate(current)], replace the state
    with [update(current)] and return true; else return false. [Access]
    returns a view of the current state. *)
Definition CmpSwap {World} (willChange : queryState -> bool)
  (change : queryState -> queryState) : M World bool :=
  fun st =>
    if willChange (qstate st)
    then (Ok true, mkSt (world st) (change (qstate st)) (queue st) (trace st))
    else (Ok false, st).

Definition Access {World} : M World queryState := fun st => (Ok (qstate st), st).

(** Turning the (value, error) pair of a Go call into the monad. *)
Definition lift_result {World A} (r : error + A) : M World A :=
  fun st => match r with inl e => (Err e, st) | inr a => (Ok a, st) end.

Section handler.

Context {World : Type}.
Variable md : MetadataPkg.
Variable isvc : IndexingService World.

(** The calls to the collaborators, recorded in the trace. *)
Definition providerIndex_Find (j : job) (qk : QueryKey) : M World (list ProviderResult) :=
  fun st =>
    let '(r, w) := providerIndex isvc (world st) qk in
    lift_result r (mkSt w (qstate st) (queue st) (trace st ++ [EvFind j qk r])).

Definition md_UnmarshalBinary (data : list byte) : M World (list Protocol) :=
  fun st =>
    let r := UnmarshalBinary md data in
    lift_result r (mkSt (world st) (qstate st) (queue st) (trace st ++ [EvUnmarshal data r])).

Definition claimLookup_LookupClaim (claimCid : Cid) (fetchURL : URL) : M World Delegation :=
  fun st =>
    let '(r, w) := claimLookup isvc (world st) claimCid fetchURL in
    lift_result r (mkSt w (qstate st) (queue st) (trace st ++ [EvLookupClaim claimCid fetchURL r])).

Definition blobIndexLookup_Find (contextID : list byte) (provider : ProviderResult)
  (fetchURL : URL) (rng : option Range) : M World ShardedDagIndexView :=
  fun st =>
    let '(r, w) := blobIndexLookup isvc (world st) contextID provider fetchURL rng in
    lift_result r
      (mkSt w (qstate st) (queue st) (trace st ++ [EvBlobFind contextID provider fetchURL rng r])).

Definition fetchClaimUrl (provider : AddrInfo) (claimCid : Cid) : URL := zeroURL.

Definition fetchRetrievalUrl (provider : AddrInfo) (shard : Cid) : URL := zeroURL.

(** The updates the handler routes through [CmpSwap]. *)
Definition visit (k : jobKey) (qs : queryState) : queryState :=
  mkqueryState (q qs) (qr qs) ({[k]} ∪ visits qs).

Definition setClaim (c : Cid) (claim : Delegation) (qs : queryState) : queryState :=
  mkqueryState (q qs) (mkQueryResult (<[c := claim]> (Claims (qr qs))) (Indexes (qr qs)))
    (visits qs).

Definition setIndex (contextID : list byte) (index : ShardedDagIndexView) (qs : queryState)
  : queryState :=
  mkqueryState (q qs) (mkQueryResult (Claims (qr qs)) (<[contextID := index]> (Indexes (qr qs))))
    (visits qs).

(** [case *metadata.LocationCommitmentMetadata] with [j.indexForMh != nil]:
    fetch the index, record it, and spawn a job for every shard that holds
    the multihash the index was looked up for. The shards are visited in the
    order [map_to_list] lists them; Go leaves the order of a map iteration
    open. *)
Definition handleIndexLocation (j : job) (spawn : job -> M World unit)
  (result : ProviderResult) (Shard : option Cid) (rng : option Range)
  (forMh : Multihash) : M World unit :=
  let shard := match Shard with Some c => c | None => NewCidV1 cid_Raw (mh j) end in
  provider <- deref (Provider result) ;;
  let url := fetchRetrievalUrl provider shard in
  record <- deref (indexProviderRecord j) ;;
  index <- blobIndexLookup_Find (ContextID result) record url rng ;;
  CmpSwap
    (fun qs => negb (bool_decide (is_Some (Indexes (qr qs) !! ContextID result))))
    (setIndex (ContextID result) index) ;;;
  forEach (map_to_list (Shards index))
    (fun '(shard, index) =>
       if Has index forMh
       then spawn (mkjob shard None None equalsOrLocationJobType)
       else ret tt).

(** [switch typedProtocol := protocol.(type)] *)
Definition handleClaimType (j : job) (spawn : job -> M World unit)
  (result : ProviderResult) (protocol : Protocol) : M World unit :=
  match protocol with
  | EqualsClaimMetadata Equals _ =>
      if negb (String.eqb (string_of_bytes (cid_hash Equals)) (string_of_bytes (mh j)))
      then spawn (mkjob (cid_hash Equals) None None locationJobType)
      else spawn (mkjob (ContextID result) None None locationJobType)
  | IndexClaimMetadata Index _ =>
      spawn (mkjob (cid_hash Index) (Some (mh j)) (Some result) equalsOrLocationJobType)
  | LocationCommitmentMetadata Shard rng _ =>
      match indexForMh j with
      | Some forMh => handleIndexLocation j spawn result Shard rng forMh
      | None => ret tt
      end
  | OtherClaimProtocol _ _ => ret tt
  | NonClaimProtocol _ => ret tt
  end.

(** The body of [for _, code := range md.Protocols()]. *)
Definition handleProtocol (j : job) (spawn : job -> M World unit)
  (result : ProviderResult) (protocol : Protocol) : M World unit :=
  match GetClaimCid protocol with
  | None => ret tt
  | Some claimCid =>
      provider <- deref (Provider result) ;;
      let url := fetchClaimUrl provider claimCid in
      claim <- claimLookup_LookupClaim claimCid url ;;
      CmpSwap
        (fun qs => negb (bool_decide (is_Some (Claims (qr qs) !! claimCid))))
        (setClaim claimCid claim) ;;;
      handleClaimType j spawn result protocol
  end.

(** The body of [for _, result := range results]. *)
Definition handleResult (j : job) (spawn : job -> M World unit)
  (result : ProviderResult) : M World unit :=
  protocols <- md_UnmarshalBinary (Metadata result) ;;
  forEach protocols (handleProtocol j spawn result).

Definition jobHandler (j : job) (spawn : job -> M World unit) : M World unit :=
  fresh <- CmpSwap
    (fun qs => negb (bool_decide (key j ∈ visits qs)))
    (visit (key j)) ;;
  if negb fresh then ret tt
  else
    qs <- Access ;;
    results <- providerIndex_Find j
      (mkQueryKey (mh j) (Subject (Match_ (q qs))) (targetClaims_at md (j_jobType j))) ;;
    forEach results (handleResult j spawn).

(** Modelled from the spec: pkg/internal/jobwalker/singlewalk is not among
    the sources. Serial mode processes the initial jobs and everything they
    spawn on a single path; [spawn] enqueues for later execution in the
    current call; the walk returns when the queue is empty. A handler that
    returns an error ends the walk with that error and the state accumulated
    so far. *)
Definition enqueue (j : job) : M World unit :=
  fun st => (Ok tt, mkSt (world st) (qstate st) (queue st ++ [j]) (trace st ++ [EvSpawn j])).

Inductive walkEnd :=
| Finished
| Failed (e : error)
| Panicked
| OutOfFuel.

Fixpoint SingleWalker (fuel : nat)
  (handler : job -> (job -> M World unit) -> M World unit) (st : St World)
  : walkEnd * St World :=
  match queue st with
  | [] => (Finished, st)
  | j :: rest =>
      match fuel with
      | O => (OutOfFuel, st)
      | S fuel' =>
          match handler j enqueue (mkSt (world st) (qstate st) rest (trace st)) with
          | (Ok _, st') => SingleWalker fuel' handler st'
          | (Err e, st') => (Failed e, st')
          | (Panic, st') => (Panicked, st')
          end
      end
  end.

(** The state [Query] starts the walk from. *)
Definition initialJobs (query : Query) : list job :=
  map (fun m => mkjob m None None standardJobType) (Hashes query).

Definition initialState (query : Query) (w : World) : St World :=
  mkSt w (mkqueryState query (mkQueryResult ∅ ∅) ∅) (initialJobs query) [].

(** The walk [Query] runs, with the calls it made. The walker is the one
    [NewIndexingService] installs, [singlewalk.SingleWalker]; [WithConcurrency]
    replaces it by the parallel walker, which is not modelled here. *)
Definition Query_walk (fuel : nat) (query : Query) (w : World) : walkEnd * St World :=
  SingleWalker fuel jobHandler (initialState query w).

(** What a call of [Query] comes to: it returns a result and an error
    ([None] for nil), panics, or is still running when the fuel is out. *)
Inductive QueryReturn :=
| Returns (result : QueryResult) (err : option error)
| QueryPanics
| QueryRunning.

Definition IndexingService_Query (fuel : nat) (query : Query) (w : World) : QueryReturn :=
  match Query_walk fuel query w with
  | (Finished, st) => Returns (qr (qstate st)) None
  | (Failed e, st) => Returns (qr (qstate st)) (Some e)
  | (Panicked, _) => QueryPanics
  | (OutOfFuel, _) => QueryRunning
  end.

End handler.

(** *** Reading a walk off its trace

    The predicates the properties of the handler and of the walk are stated
    with. *)

(** The jobs to follow an index with: one for every shard that holds
    [forMh], in the order the shards are enumerated. *)
Definition shardJobs (shards : list (Multihash * gmap Multihash Position))
  (forMh : Multihash) : list job :=
  map (fun se => mkjob (fst se) None None equalsOrLocationJobType)
      (List.filter (fun se => Has (snd se) forMh) shards).

(** The jobs spawned according to a trace of calls. *)
Definition filter_spawns (tr : list event) : list job :=
  omap (fun ev => match ev with EvSpawn j => Some j | _ => None end) tr.

(** The jobs the handler went on to call [ProviderIndex.Find] for, in order. *)
Definition find_jobs (tr : list event) : list job :=
  omap (fun ev => match ev with EvFind j _ _ => Some j | _ => None end) tr.

(** The error a call returned, if it returned one. *)
Definition event_error (ev : event) : option error :=
  match ev with
  | EvFind _ _ (inl e) => Some e
  | EvUnmarshal _ (inl e) => Some e
  | EvLookupClaim _ _ (inl e) => Some e
  | EvBlobFind _ _ _ _ (inl e) => Some e
  | _ => None
  end.

Definition no_error (tr : list event) : Prop :=
  Forall (fun ev => event_error ev = None) tr.

(** The claims and indexes a sequence of calls has accumulated: a claim
    looked up, or an index fetched, is inserted unless its key is there
    already. *)
Definition record_event (r : QueryResult) (ev : event) : QueryResult :=
  match ev with
  | EvLookupClaim c _ (inr claim) =>
      if bool_decide (is_Some (Claims r !! c)) then r
      else mkQueryResult (<[c := claim]> (Claims r)) (Indexes r)
  | EvBlobFind contextID _ _ _ (inr index) =>
      if bool_decide (is_Some (Indexes r !! contextID)) then r
      else mkQueryResult (Claims r) (<[contextID := index]> (Indexes r))
  | _ => r
  end.

Definition accumulated (tr : list event) : QueryResult :=
  fold_left record_event tr (mkQueryResult ∅ ∅).

(** A specification of a piece of handler code: from a state in [P] it ends
    normally in [QO], with an error in [QE], or in a panic in [QP]. *)
Definition triple {World A} (P : St World -> Prop) (m : M World A)
  (QO : A -> St World -> Prop) (QE : error -> St World -> Prop)
  (QP : St World -> Prop) : Prop :=
  forall st, P st ->
    match m st with
    | (Ok a, st') => QO a st'
    | (Err e, st') => QE e st'
    | (Panic, st') => QP st'
    end.

(** Handler code that makes no [ProviderIndex.Find] call and leaves the set
    of visited keys alone keeps a state [steady] with respect to where it
    started. *)
Definition steady {World} (st0 st : St World) : Prop :=
  find_jobs (trace st) = find_jobs (trace st0)
  /\ visits (qstate st) = visits (qstate st0).

Definition keeps {World A} (st0 : St World) (m : M World A) : Prop :=
  triple (steady st0) m (fun _ => steady st0) (fun _ => steady st0) (steady st0).


(** What holds of the trace and the result along a walk that has met no
    error: no call has returned one, and the result holds what the calls so
    far have accumulated. *)
Definition walk_inv {World} (st : St World) : Prop :=
  no_error (trace st) /\ qr (qstate st) = accumulated (trace st).

(** The state in which a handler returns the error [e]: the last call
    returned it, no call before did, and the result holds what the calls
    before it have accumulated. *)
Definition failed_with {World} (e : error) (st : St World) : Prop :=
  exists before ev,
    trace st = before ++ [ev] /\ event_error ev = Some e
    /\ no_error before /\ qr (qstate st) = accumulated before.

(** Between a successful lookup [ev] and the [CmpSwap] that records it. *)
Definition pending {World} (ev : event) (st : St World) : Prop :=
  exists before,
    trace st = before ++ [ev] /\ no_error before /\ qr (qstate st) = accumulated before.

Definition sound {World A} (m : M World A) : Prop :=
  triple walk_inv m (fun _ => walk_inv) failed_with walk_inv.

End service.

(** ** Jobs and calls along a walk *)

Module walk.
Import service.

(** A job that is to fetch an index carries the record of the index claim. *)
Definition wf_job (j : job) : Prop :=
  indexForMh j = None \/ is_Some (indexProviderRecord j).

(** The jobs a handler spawns: of type location or equals-or-location. *)
Definition spawn_shape (j : job) : Prop :=
  (j_jobType j = locationJobType \/ j_jobType j = equalsOrLocationJobType)
  /\ wf_job j.

(** The jobs a walk runs: of one of the three job types. *)
Definition runnable (j : job) : Prop :=
  known_jobType (j_jobType j) /\ wf_job j.

(** Every call but [ProviderIndex.Find]. *)
Definition quiet (ev : event) : Prop :=
  match ev with EvFind _ _ _ => False | _ => True end.

(** What the handler does after its [Find] call: it makes further calls,
    none of them a [Find], queues the jobs it spawns, and leaves the query
    and the visited keys as they are. *)
Definition follows {World} (st0 st : St World) : Prop :=
  exists evs,
    trace st = trace st0 ++ evs
    /\ Forall quiet evs
    /\ queue st = queue st0 ++ filter_spawns evs
    /\ Forall spawn_shape (filter_spawns evs)
    /\ q (qstate st) = q (qstate st0)
    /\ visits (qstate st) = visits (qstate st0).

Definition follower {World A} (st0 : St World) (m : M World A) : Prop :=
  triple (follows st0) m (fun _ => follows st0) (fun _ => follows st0) (follows st0).

(** The key a [Find] call is to be made with for job [j] of [query]. *)
Definition find_key (md : MetadataPkg) (query : Query) (j : job) : QueryKey :=
  mkQueryKey (mh j) (Subject (Match_ query)) (targetClaims_at md (j_jobType j)).

Definition find_ok (md : MetadataPkg) (query : Query) (ev : event) : Prop :=
  match ev with
  | EvFind j qk _ => qk = find_key md query j /\ runnable j
  | _ => True
  end.

(** What holds of the jobs and the calls along the walk of [query]. *)
Definition jobs_ok {World} (md : MetadataPkg) (query : Query) (st : St World) : Prop :=
  q (qstate st) = query
  /\ Forall (find_ok md query) (trace st)
  /\ Forall spawn_shape (filter_spawns (trace st))
  /\ Forall runnable (queue st).

(** Handler code that does not panic and whose results satisfy [R]. *)
Definition safe {World A} (R : A -> Prop) (m : M World A) : Prop :=
  triple (fun _ => True) m (fun a _ => R a) (fun _ _ => True) (fun _ => False).

Definition has_provider (r : ProviderResult) : Prop := is_Some (Provider r).

(** Every record the provider index returns names its provider. *)
Definition providers_named {World} (isvc : IndexingService World) : Prop :=
  forall w qk rs w', providerIndex isvc w qk = (inr rs, w') -> Forall has_provider rs.

(** The successful claim lookups and index fetches among a sequence of
    calls. *)
Definition claim_fetched (c : Cid) (d : Delegation) (tr : list event) : Prop :=
  exists u, In (EvLookupClaim c u (inr d)) tr.

Definition index_fetched (contextID : list byte) (index : ShardedDagIndexView)
  (tr : list event) : Prop :=
  exists r u rng, In (EvBlobFind contextID r u rng (inr index)) tr.

(** The state in which the handler turns to the type of a claim block: the
    lookup of the claim is recorded, and the claim is in the result unless
    its cid was there already. *)
Definition claim_recorded {World} (st : St World) (w1 : World) (c : Cid) (u : URL)
  (d : Delegation) : St World :=
  mkSt w1
    (if bool_decide (is_Some (Claims (qr (qstate st)) !! c)) then qstate st
     else setClaim c d (qstate st))
    (queue st) (trace st ++ [EvLookupClaim c u (inr d)]).

End walk.

(** ** pkg/redis: the provider store *)

Module redis.
Section providerstore.

(** [providerresults.MarshalCBOR] and [providerresults.UnmarshalCBOR], which
    call into go-ipld-prime; [MarshalCBOR] returns its bytes and its error as
    the Go function does. *)
Variable MarshalCBOR : list ProviderResult -> list byte * option error.
Variable UnmarshalCBOR : list byte -> error + list ProviderResult.

Definition providerResultsFromRedis (data : string) : error + list ProviderResult :=
  UnmarshalCBOR (list_byte_of_string data).

Definition providerResultsToRedis (records : list ProviderResult) : string * option error :=
  let '(data, err) := MarshalCBOR records in (string_of_bytes data, err).

Definition multihashKeyString (k : Multihash) : string := string_of_bytes k.

End providerstore.
End redis.

(** ** pkg/redis, the tests: the mock redis client *)

Module redis_test.

(** [time.Duration], a count of nanoseconds. *)
Definition Duration := Z.

Record redisValue := mkredisValue { rv_data : string; expires : Duration }.

#[global] Instance redisValue_eq_dec : EqDecision redisValue.
Proof. solve_decision. Defined.

Record MockRedis := mkMockRedis {
  data : gmap string redisValue;
  errGet : option error;
  errSet : option error;
  errSetExpiration : option error
}.

(** A command of go-redis, as far as the mock fills it in: its value and
    its error. A new command has the zero value and no error. *)
Record Cmd (A : Type) := mkCmd { cmd_val : A; cmd_err : option error }.
Arguments mkCmd {A} _ _.
Arguments cmd_val {A} _.
Arguments cmd_err {A} _.

(** [goredis.Nil], the error of a missing key. *)
Definition goredis_Nil : error := "redis: nil".

(** The [value interface{}] handed to [Set]: a string, or anything else. *)
Inductive Value :=
| VString (s : string)
| VOther.

Definition MockOption := MockRedis -> MockRedis.

Definition WithErrorOnGet (err : option error) : MockOption :=
  fun m => mkMockRedis (data m) err (errSet m) (errSetExpiration m).

Definition WithErrorOnSet (err : option error) : MockOption :=
  fun m => mkMockRedis (data m) (errGet m) err (errSetExpiration m).

Definition WithErrorOnSetExpiration (err : option error) : MockOption :=
  fun m => mkMockRedis (data m) (errGet m) (errSet m) err.

Definition NewMockRedis (opts : list MockOption) : MockRedis :=
  fold_left (fun m opt => opt m) opts (mkMockRedis ∅ None None None).

(** [Expire] implements redis.RedisClient. *)
Definition Expire (m : MockRedis) (key : string) (expiration : Duration)
  : Cmd bool * MockRedis :=
  match errSetExpiration m with
  | Some err => (mkCmd false (Some err), m)
  | None =>
      match data m !! key with
      | Some val =>
          if bool_decide (expires val <> expiration)
          then (mkCmd true None,
                mkMockRedis (<[key := mkredisValue (rv_data val) expiration]> (data m))
                  (errGet m) (errSet m) (errSetExpiration m))
          else (mkCmd false None, m)
      | None => (mkCmd false None, m)
      end
  end.

(** [Get] implements redis.RedisClient. *)
Definition Get (m : MockRedis) (key : string) : Cmd string :=
  match errGet m with
  | Some err => mkCmd "" (Some err)
  | None =>
      match data m !! key with
      | None => mkCmd "" (Some goredis_Nil)
      | Some val => mkCmd (rv_data val) None
      end
  end.

(** [Persist] implements redis.RedisClient. *)
Definition Persist (m : MockRedis) (key : string) : Cmd bool * MockRedis :=
  match errSetExpiration m with
  | Some err => (mkCmd false (Some err), m)
  | None =>
      match data m !! key with
      | Some val =>
          if bool_decide (expires val <> 0%Z)
          then (mkCmd true None,
                mkMockRedis (<[key := mkredisValue (rv_data val) 0%Z]> (data m))
                  (errGet m) (errSet m) (errSetExpiration m))
          else (mkCmd false None, m)
      | None => (mkCmd false None, m)
      end
  end.

(** [Set] implements redis.RedisClient; [None] is the panic of the type
    assertion [value.(string)] on a value that is not a string. *)
Definition Set_ (m : MockRedis) (key : string) (value : Value) (expiration : Duration)
  : option (Cmd string * MockRedis) :=
  match errSet m with
  | Some err => Some (mkCmd "" (Some err), m)
  | None =>
      match value with
      | VString s =>
          Some (mkCmd "" None,
                mkMockRedis (<[key := mkredisValue s expiration]> (data m))
                  (errGet m) (errSet m) (errSetExpiration m))
      | VOther => None
      end
  end.

End redis_test.

(** ** Consumers of the entries iterator *)

Module consumers.

(** The consumer of a range loop that breaks once it has [n] pairs. *)
Definition upto (n : nat) : publisher.Yield (list (Multihash * option error)) :=
  fun d e acc => (acc ++ [(d, e)], bool_decide (length acc + 1 < n)).

End consumers.

(** ** Concrete inputs *)

Module fixtures.
Import service.

Definition b (s : string) : list byte := list_byte_of_string s.

(** Two jobs for an index lookup whose bytes split differently between [mh]
    and [indexForMh]. *)
Definition jobA : job :=
  mkjob (b "Q") (Some (b "equals_or_locationZ")) None equalsOrLocationJobType.
Definition jobB : job :=
  mkjob (b "Qequals_or_location") (Some (b "Z")) None equalsOrLocationJobType.

(** A job without [indexForMh] and one whose [indexForMh] is the empty slice. *)
Definition jobNoIndex : job := mkjob (b "Q") None None locationJobType.
Definition jobEmptyIndex : job := mkjob (b "Q") (Some []) None locationJobType.

(** An advert store with a chain of two entry chunks whose second chunk
    links to a chunk that is not in the datastore. *)
Definition Link_String (l : string) : string := l.
Definition asCID (l : string) : Cid := NewCidV1 cid_Raw (b l).
Definition NewKey (s : string) : string := s.
Definition ChildString (k s : string) : string := String.append k (String.append "/" s).

Definition chunk1 : publisher.EntryChunk string :=
  publisher.mkEntryChunk [b "h1"; b "h2"] (Some "c2"%string).
Definition chunk2 : publisher.EntryChunk string :=
  publisher.mkEntryChunk [b "h3"] (Some "c3"%string).

Definition ds_Get (k : string) : error + list byte :=
  if String.eqb k "/cache/links/c1" then inr (b "one")
  else if String.eqb k "/cache/links/c2" then inr (b "two")
  else inl "datastore: key not found"%string.

Definition BytesToEntryChunk (c : Cid) (v : list byte) : error + publisher.EntryChunk string :=
  if bool_decide (v = b "one") then inr chunk1
  else if bool_decide (v = b "two") then inr chunk2
  else inl "decode failed"%string.

(** A backend for the query engine: [H1] has an index claim for the index
    [HI]; [HI] has a location commitment; the index lists shard [S1], which
    holds [H1], and shard [S2], which does not; [H2] has an equals claim. *)
Definition H1 : Multihash := b "H1".
Definition H2 : Multihash := b "H2".
Definition H3 : Multihash := b "H3".
Definition HI : Multihash := b "HI".
Definition S1 : Multihash := b "S1".
Definition S2 : Multihash := b "S2".
Definition Hx : Multihash := b "Hx".
Definition Hy : Multihash := b "Hy".

Definition claim1 : Cid := NewCidV1 cid_Raw (b "claim1").
Definition claim2 : Cid := NewCidV1 cid_Raw (b "claim2").
Definition claim3 : Cid := NewCidV1 cid_Raw (b "claim3").

Definition peer1 : AddrInfo := mkAddrInfo "peer1" [].
Definition peer2 : AddrInfo := mkAddrInfo "peer2" [].

Definition recIndex : ProviderResult := mkProviderResult (b "ctx1") (b "index") (Some peer1).
Definition recLocation : ProviderResult := mkProviderResult (b "ctx2") (b "location") (Some peer2).
Definition recEquals : ProviderResult := mkProviderResult H1 (b "equals") (Some peer1).
Definition recUnknown : ProviderResult := mkProviderResult (b "ctx4") (b "unknown") None.

Definition mdpkg : MetadataPkg :=
  mkMetadataPkg 0x3E0001%N 0x3E0002%N 0x3E0003%N
    (fun data =>
       if bool_decide (data = b "index")
       then inr [NonClaimProtocol 0x0900%N; IndexClaimMetadata (NewCidV1 cid_Raw HI) claim1]
       else if bool_decide (data = b "location")
       then inr [LocationCommitmentMetadata None (Some (mkRange 7 None)) claim2]
       else if bool_decide (data = b "equals")
       then inr [EqualsClaimMetadata (NewCidV1 cid_Raw H3) claim3]
       else if bool_decide (data = b "unknown")
       then inr [NonClaimProtocol 0x0900%N]
       else inl "metadata: cannot decode"%string).

Definition shardIndex : ShardedDagIndexView :=
  mkIndexView
    (<[S1 := <[H1 := mkPosition 0 10]> (<[Hx := mkPosition 10 10]> ∅)]>
     (<[S2 := <[Hy := mkPosition 0 5]> ∅]> ∅)).

Definition findRecords (qk : QueryKey) : list ProviderResult :=
  if bool_decide (Hash qk = H1) then [recIndex]
  else if bool_decide (Hash qk = HI) then [recLocation]
  else if bool_decide (Hash qk = H2) then [recEquals]
  else [].

(** The world behind this backend is the number of calls made so far. *)
Definition backend : IndexingService nat :=
  mkIndexingService nat
    (fun w _ _ _ _ => (inr shardIndex, S w))
    (fun w c _ => (inr (b "delegation"), S w))
    (fun w qk => (inr (findRecords qk), S w)).

(** The same backend with a claim lookup that fails for [claim2]. *)
Definition failingBackend : IndexingService nat :=
  mkIndexingService nat
    (fun w _ _ _ _ => (inr shardIndex, S w))
    (fun w c _ =>
       if bool_decide (c = claim2) then (inl "claim not found"%string, S w)
       else (inr (b "delegation"), S w))
    (fun w qk => (inr (findRecords qk), S w)).

Definition emptyState (w : nat) : St nat :=
  mkSt w (mkqueryState (mkQuery [] (mkMatch [])) (mkQueryResult ∅ ∅) ∅) [] [].

(** The job an index claim on [H1] spawns for the index [HI]. *)
Definition jobIndex : job := mkjob HI (Some H1) (Some recIndex) equalsOrLocationJobType.

(** A job for [H2], on which the equals claim for [H3] is found. *)
Definition jobEquals : job := mkjob H2 None None standardJobType.

(** An advert store whose only chunk links back to itself. *)
Definition chunkLoop : publisher.EntryChunk string :=
  publisher.mkEntryChunk [b "h1"] (Some "c9"%string).

Definition ds_Get_loop (k : string) : error + list byte :=
  if String.eqb k "/cache/links/c9" then inr (b "loop")
  else inl "datastore: key not found"%string.

Definition BytesToEntryChunk_loop (c : Cid) (v : list byte)
  : error + publisher.EntryChunk string :=
  if bool_decide (v = b "loop") then inr chunkLoop else inl "decode failed"%string.

(** Provider results: two that differ in their provider's addresses only,
    and a rendering of address infos that shows the id alone. *)
Definition String_id (a : AddrInfo) : string := ID a.
Definition resA : ProviderResult := mkProviderResult (b "ctx") (b "md") (Some peer1).
Definition resB : ProviderResult :=
  mkProviderResult (b "ctx") (b "md") (Some (mkAddrInfo "peer1" [b "addr"])).

(** A mock redis client with one key. *)
Definition mock1 : redis_test.MockRedis :=
  redis_test.mkMockRedis (<["key1"%string := redis_test.mkredisValue "value1" 5%Z]> ∅)
    None None None.

(** A record without a provider whose metadata holds a claim. *)
Definition recNoProvider : ProviderResult := mkProviderResult (b "ctx5") (b "index") None.

End fixtures.

(** * Properties *)

(** ** Job keys *)

Section job_keys.
Import service.

Lemma list_byte_of_string_append (s1 s2 : string) :
  list_byte_of_string (String.append s1 s2)
  = list_byte_of_string s1 ++ list_byte_of_string s2.
Proof.
  unfold list_byte_of_string.
  induction s1 as [|a s1 IH]; simpl; [reflexivity|].
  f_equal. exact IH.
Qed.

Lemma key_bytes (j : job) :
  list_byte_of_string (key j) = mh j ++ key_tail j.
Proof.
  unfold key, key_tail, string_of_bytes.
  destruct (indexForMh j) as [m|]; simpl;
    rewrite !list_byte_of_string_append, !list_byte_of_string_of_list_byte.
  - by rewrite <- app_assoc.
  - by rewrite app_nil_r.
Qed.

Lemma same_tuple_key (j1 j2 : job) : same_tuple j1 j2 -> key j1 = key j2.
Proof.
  intros (Hm & Ht & Hi). unfold key. by rewrite Hm, Ht, Hi.
Qed.

Lemma jobType_tail_inv (t1 t2 : jobType) (o1 o2 : list byte) :
  known_jobType t1 -> known_jobType t2 ->
  list_byte_of_string t1 ++ o1 = list_byte_of_string t2 ++ o2 ->
  t1 = t2 /\ o1 = o2.
Proof.
  intros [-> | [-> | ->]] [-> | [-> | ->]] H;
    try (split; [reflexivity | by apply app_inv_head in H]);
    by vm_compute in H.
Qed.

(** C1, as the code has it: equal tuples always give equal keys, and equal
    keys give equal tuples for jobs of the three job types whose multihashes
    are not proper prefixes of one another and whose [indexForMh], when
    present, is not empty. *)
Theorem key_identifies_tuple (j1 j2 : job) :
  known_jobType (j_jobType j1) -> known_jobType (j_jobType j2) ->
  ~ proper_prefix (mh j1) (mh j2) -> ~ proper_prefix (mh j2) (mh j1) ->
  indexForMh j1 <> Some [] -> indexForMh j2 <> Some [] ->
  (key j1 = key j2 <-> same_tuple j1 j2).
Proof.
  intros Ht1 Ht2 Hp12 Hp21 Hi1 Hi2. split; [|apply same_tuple_key].
  intros Hk. apply (f_equal list_byte_of_string) in Hk.
  rewrite !key_bytes in Hk.
  assert (Hmh : mh j1 = mh j2).
  { destruct (app_eq_inv _ _ _ _ Hk) as [(k & Hk1 & _) | (k & Hk1 & _)].
    - destruct k as [|x k]; [by rewrite app_nil_r in Hk1|].
      exfalso. apply Hp21. exists (x :: k). by split.
    - destruct k as [|x k]; [by rewrite app_nil_r in Hk1|].
      exfalso. apply Hp12. exists (x :: k). by split. }
  rewrite Hmh in Hk. apply app_inv_head in Hk.
  destruct (jobType_tail_inv _ _ _ _ Ht1 Ht2 Hk) as [Ht Ho].
  repeat split; [exact Hmh | exact Ht |].
  destruct (indexForMh j1) as [[|x1 m1]|], (indexForMh j2) as [[|x2 m2]|];
    simpl in Ho; try congruence; by (exfalso; (apply Hi1 || apply Hi2)).
Qed.

(** The hypotheses hold, for instance, of two different jobs. *)
Lemma key_identifies_tuple_witness :
  key fixtures.jobA = key fixtures.jobNoIndex
  <-> same_tuple fixtures.jobA fixtures.jobNoIndex.
Proof.
  apply key_identifies_tuple.
  - right; right; reflexivity.
  - right; left; reflexivity.
  - intros (k & Hk & H). vm_compute in H. destruct k as [|? k]; [by apply Hk | discriminate H].
  - intros (k & Hk & H). vm_compute in H. destruct k as [|? k]; [by apply Hk | discriminate H].
  - discriminate.
  - discriminate.
Defined.

(** C1 as stated fails: two jobs with different multihashes and different
    [indexForMh] have the same key. *)
Lemma key_collision :
  key fixtures.jobA = key fixtures.jobB
  /\ ~ same_tuple fixtures.jobA fixtures.jobB.
Proof.
  split; [reflexivity|].
  intros (H & _). vm_compute in H. discriminate H.
Qed.

(** A nil [indexForMh] and an empty one are not told apart either. *)
Lemma key_collision_nil_empty :
  key fixtures.jobNoIndex = key fixtures.jobEmptyIndex
  /\ indexForMh fixtures.jobNoIndex <> indexForMh fixtures.jobEmptyIndex.
Proof. split; [reflexivity | discriminate]. Qed.

End job_keys.

(** ** Equality of provider results *)

Section provider_results.
Import providerresults.

Variable AddrInfo_String : AddrInfo -> string.

Lemma bytes_Equal_true (x y : list byte) : bytes_Equal x y = true <-> x = y.
Proof. unfold bytes_Equal. by rewrite bool_decide_eq_true. Qed.

Lemma equalProvider_true (x y : option AddrInfo) :
  equalProvider AddrInfo_String x y = true <->
  (x = None /\ y = None) \/
  (exists px py, x = Some px /\ y = Some py /\ AddrInfo_String px = AddrInfo_String py).
Proof.
  destruct x as [px|], y as [py|]; simpl.
  - rewrite String.eqb_eq. split.
    + intros H. right. by exists px, py.
    + intros [[? _] | (? & ? & [= ->] & [= ->] & H)]; [discriminate | exact H].
  - split; [discriminate|]. intros [[? _] | (? & ? & _ & ? & _)]; discriminate.
  - split; [discriminate|]. intros [[_ ?] | (? & ? & ? & _)]; discriminate.
  - split; [by left | done].
Qed.

(** C9: [Equals a b] holds exactly when the context ids are byte-equal, the
    metadata are byte-equal, and the providers are both nil or both present
    with the same rendering; a nil provider is never equal to a present one,
    and every result equals itself. *)
Theorem Equals_spec (x y : ProviderResult) :
  (Equals AddrInfo_String x y = true <->
     ContextID x = ContextID y /\ Metadata x = Metadata y /\
     ((Provider x = None /\ Provider y = None) \/
      (exists px py, Provider x = Some px /\ Provider y = Some py /\
                     AddrInfo_String px = AddrInfo_String py)))
  /\ (forall c1 m1 c2 m2 p,
        Equals AddrInfo_String (mkProviderResult c1 m1 None) (mkProviderResult c2 m2 (Some p)) = false
        /\ Equals AddrInfo_String (mkProviderResult c1 m1 (Some p)) (mkProviderResult c2 m2 None) = false)
  /\ Equals AddrInfo_String x x = true.
Proof.
  split; [|split].
  - unfold Equals. rewrite !andb_true_iff, !bytes_Equal_true, equalProvider_true. tauto.
  - intros c1 m1 c2 m2 p. unfold Equals; simpl. split.
    + by rewrite andb_false_r.
    + by rewrite andb_false_r.
  - unfold Equals. rewrite !andb_true_iff, !bytes_Equal_true, equalProvider_true.
    repeat split. destruct (Provider x) as [px|]; [right; by exists px, px | by left].
Qed.

End provider_results.

(** ** The entries iterator of the advert store *)

Section advert_store.
Import publisher.

Context {Link Key : Type}.
Variable Link_String : Link -> string.
Variable asCID : Link -> Cid.
Variable NewKey : string -> Key.
Variable ChildString : Key -> string -> Key.
Variable ds_Get : Key -> error + list byte.
Variable BytesToEntryChunk : Cid -> list byte -> error + EntryChunk Link.

Local Abbreviation Entries := (Entries Link_String asCID NewKey ChildString ds_Get BytesToEntryChunk).
Local Abbreviation chain := (chain Link_String asCID NewKey ChildString ds_Get BytesToEntryChunk).

Lemma feed_entries {S} (ents : list Multihash) (rest : list (Multihash * option error))
  (yield : Yield S) (s : S) :
  feed (map (fun d => (d, None)) ents ++ rest) yield s
  = let '(s', more) := yieldEntries ents yield s in
    if more then feed rest yield s' else s'.
Proof.
  revert s. induction ents as [|d ents IH]; intros s; simpl; [reflexivity|].
  destruct (yield d None s) as [s' more]. destruct more; [apply IH | reflexivity].
Qed.

Lemma feed_collect (items acc : list (Multihash * option error)) :
  feed items collect acc = acc ++ items.
Proof.
  revert acc. induction items as [|[d e] items IH]; intros acc; simpl.
  - by rewrite app_nil_r.
  - rewrite IH. by rewrite <- app_assoc.
Qed.

Lemma yields_of_cons (ent : EntryChunk Link) chunks fin :
  yields_of (ent :: chunks) fin
  = map (fun d => (d, None)) (Entries_ ent) ++ yields_of chunks fin.
Proof. unfold yields_of. simpl. by rewrite map_app, <- app_assoc. Qed.

Lemma Entries_feed root chunks fin :
  chain root chunks fin ->
  forall S (yield : Yield S) (s : S) (fuel : nat),
    length chunks < fuel ->
    Entries fuel root yield s = Some (feed (yields_of chunks fin) yield s).
Proof.
  unfold publisher.Entries.
  induction 1 as [| c err Hget | c v err Hget Hdec | c v ent chunks fin Hget Hdec Hch IH];
    intros S yield s fuel Hfuel.
  - by destruct fuel.
  - destruct fuel as [|fuel]; [simpl in Hfuel; lia|]. simpl. rewrite Hget.
    unfold yields_of; simpl. by destruct (yield [] (Some err) s) as [s' []].
  - destruct fuel as [|fuel]; [simpl in Hfuel; lia|]. simpl. rewrite Hget, Hdec.
    unfold yields_of; simpl. by destruct (yield [] (Some err) s) as [s' []].
  - destruct fuel as [|fuel]; [simpl in Hfuel; lia|]. simpl. rewrite Hget, Hdec.
    rewrite yields_of_cons, feed_entries.
    destruct (yieldEntries (Entries_ ent) yield s) as [s' more].
    destruct more; [|reflexivity]. apply IH. simpl in Hfuel. lia.
Qed.

(** C10: along the chain of entry chunks that starts at [root], the iterator
    hands its consumer the multihashes of the chunks in order and, where the
    chain ends in a datastore or decode failure, one pair (nil, error) after
    them and nothing more; it then returns. A consumer that never stops
    receives exactly this sequence. *)
Theorem Entries_yields_chain root chunks fin S (yield : Yield S) (s : S) (fuel : nat) :
  chain root chunks fin ->
  length chunks < fuel ->
  Entries fuel root yield s = Some (feed (yields_of chunks fin) yield s)
  /\ Entries fuel root collect [] = Some (yields_of chunks fin).
Proof.
  intros Hch Hfuel. split.
  - by apply Entries_feed.
  - rewrite (Entries_feed _ _ _ Hch) by exact Hfuel. by rewrite feed_collect.
Qed.

(** Without a consumer in the way: the sequence for a chain that ends at a
    nil [Next] holds no error, and for one that ends in a failure it ends
    with the only pair that carries one. *)
Lemma yields_of_shape (chunks : list (EntryChunk Link)) :
  yields_of chunks None = map (fun d => (d, None)) (concat (map Entries_ chunks))
  /\ forall err, yields_of chunks (Some err)
       = map (fun d => (d, None)) (concat (map Entries_ chunks)) ++ [([], Some err)].
Proof. unfold yields_of. split; [by rewrite app_nil_r | done]. Qed.

End advert_store.

Lemma Entries_yields_chain_witness :
  publisher.Entries fixtures.Link_String fixtures.asCID fixtures.NewKey fixtures.ChildString
    fixtures.ds_Get fixtures.BytesToEntryChunk 3 (Some "c1"%string) publisher.collect []
  = Some [(fixtures.b "h1", None); (fixtures.b "h2", None); (fixtures.b "h3", None);
          ([], Some "datastore: key not found"%string)].
Proof.
  refine (proj2 (Entries_yields_chain fixtures.Link_String fixtures.asCID fixtures.NewKey
    fixtures.ChildString fixtures.ds_Get fixtures.BytesToEntryChunk
    (Some "c1"%string) [fixtures.chunk1; fixtures.chunk2] (Some "datastore: key not found"%string)
    _ publisher.collect [] 3 _ _)).
  - eapply publisher.chain_cons; [reflexivity | reflexivity |].
    eapply publisher.chain_cons; [reflexivity | reflexivity |].
    apply publisher.chain_get_fails. reflexivity.
  - simpl. lia.
Defined.

(** ** The job handler, block by block *)

Section handler_blocks.
Import service.

Context {World : Type}.
Variable isvc : IndexingService World.

Lemma string_of_bytes_inj (x y : list byte) :
  string_of_bytes x = string_of_bytes y <-> x = y.
Proof.
  split; [|by intros ->]. unfold string_of_bytes. intros H.
  apply (f_equal list_byte_of_string) in H.
  by rewrite !list_byte_of_string_of_list_byte in H.
Qed.

Lemma bytes_differ (x y : list byte) :
  negb (String.eqb (string_of_bytes x) (string_of_bytes y))
  = if decide (x = y) then false else true.
Proof.
  destruct (decide (x = y)) as [->|Hne].
  - by rewrite String.eqb_refl.
  - apply negb_true_iff, String.eqb_neq. by rewrite string_of_bytes_inj.
Qed.

Lemma filter_spawns_app (t1 t2 : list event) :
  filter_spawns (t1 ++ t2) = filter_spawns t1 ++ filter_spawns t2.
Proof. apply omap_app. Qed.

Lemma filter_spawns_map (js : list job) : filter_spawns (map EvSpawn js) = js.
Proof. induction js as [|j js IH]; [done|]. cbn. f_equal. exact IH. Qed.

(** Stepping through [bind]. *)
Lemma bind_Ok {A B} (m : M World A) (k : A -> M World B) st a st' :
  m st = (Ok a, st') -> bind m k st = k a st'.
Proof. unfold bind. by intros ->. Qed.

Lemma bind_Err {A B} (m : M World A) (k : A -> M World B) st e st' :
  m st = (Err e, st') -> bind m k st = (Err e, st').
Proof. unfold bind. by intros ->. Qed.

Lemma bind_Panic {A B} (m : M World A) (k : A -> M World B) st st' :
  m st = (Panic, st') -> bind m k st = (Panic, st').
Proof. unfold bind. by intros ->. Qed.

(** [CmpSwap] returns normally and touches the query state only. *)
Lemma CmpSwap_run (willChange : queryState -> bool) (change : queryState -> queryState)
  (st : St World) :
  exists b qs, CmpSwap willChange change st
               = (Ok b, mkSt (world st) qs (queue st) (trace st)).
Proof.
  unfold CmpSwap. destruct (willChange (qstate st)); [by eauto|].
  exists false, (qstate st). by destruct st.
Qed.

Lemma CmpSwap_true (willChange : queryState -> bool) (change : queryState -> queryState)
  (st : St World) :
  willChange (qstate st) = true ->
  CmpSwap willChange change st
  = (Ok true, mkSt (world st) (change (qstate st)) (queue st) (trace st)).
Proof. unfold CmpSwap. by intros ->. Qed.

Lemma CmpSwap_false (willChange : queryState -> bool) (change : queryState -> queryState)
  (st : St World) :
  willChange (qstate st) = false -> CmpSwap willChange change st = (Ok false, st).
Proof. unfold CmpSwap. by intros ->. Qed.

(** One turn of the walker's loop. *)
Lemma SingleWalker_step (fuel : nat)
  (handler : job -> (job -> M World unit) -> M World unit) (st : St World)
  (j : job) (rest : list job) :
  queue st = j :: rest ->
  SingleWalker (S fuel) handler st
  = match handler j enqueue (mkSt (world st) (qstate st) rest (trace st)) with
    | (Ok _, st') => SingleWalker fuel handler st'
    | (Err e, st') => (Failed e, st')
    | (Panic, st') => (Panicked, st')
    end.
Proof. intros Hq. cbn [SingleWalker]. by rewrite Hq. Qed.

(** Running the shard loop with the walker's [spawn]. *)
Lemma forEach_shards (shards : list (Multihash * gmap Multihash Position))
  (forMh : Multihash) (st : St World) :
  forEach shards
    (fun '(shard, index) =>
       if Has index forMh
       then enqueue (mkjob shard None None equalsOrLocationJobType)
       else ret tt) st
  = (Ok tt, mkSt (world st) (qstate st) (queue st ++ shardJobs shards forMh)
              (trace st ++ map EvSpawn (shardJobs shards forMh))).
Proof.
  revert st. induction shards as [|[shard index] shards IH]; intros st.
  - unfold shardJobs; simpl. rewrite !app_nil_r. by destruct st.
  - unfold shardJobs in *. simpl. unfold bind at 1.
    destruct (Has index forMh); simpl.
    + rewrite IH. simpl. by rewrite <- !app_assoc.
    + by rewrite IH.
Qed.

(** What the handler does with a location commitment it finds while looking
    for the location of an index. *)
Lemma handleProtocol_index_location (j : job) (r record : ProviderResult)
  (Shard : option Cid) (rng : option Range) (claim : Cid) (p : AddrInfo)
  (forMh : Multihash) (d : Delegation) (w1 : World) (st : St World) :
  Provider r = Some p ->
  indexForMh j = Some forMh ->
  indexProviderRecord j = Some record ->
  claimLookup isvc (world st) claim (fetchClaimUrl p claim) = (inr d, w1) ->
  let url := fetchRetrievalUrl p
               match Shard with Some c => c | None => NewCidV1 cid_Raw (mh j) end in
  let found := blobIndexLookup isvc w1 (ContextID r) record url rng in
  let calls := [EvLookupClaim claim (fetchClaimUrl p claim) (inr d);
                EvBlobFind (ContextID r) record url rng (fst found)] in
  match fst found with
  | inl e =>
      exists st', handleProtocol isvc j enqueue r (LocationCommitmentMetadata Shard rng claim) st
                  = (Err e, st')
        /\ trace st' = trace st ++ calls /\ queue st' = queue st
  | inr idx =>
      exists st', handleProtocol isvc j enqueue r (LocationCommitmentMetadata Shard rng claim) st
                  = (Ok tt, st')
        /\ trace st' = trace st ++ calls
                       ++ map EvSpawn (shardJobs (map_to_list (Shards idx)) forMh)
        /\ queue st' = queue st ++ shardJobs (map_to_list (Shards idx)) forMh
  end.
Proof.
  intros Hp Hfor Hrec Hclaim url found calls.
  unfold handleProtocol. cbn [GetClaimCid]. rewrite Hp.
  erewrite bind_Ok by reflexivity.
  erewrite bind_Ok by (unfold claimLookup_LookupClaim; rewrite Hclaim; reflexivity).
  destruct (CmpSwap_run
              (fun qs => negb (bool_decide (is_Some (Claims (qr qs) !! claim))))
              (setClaim claim d)
              (mkSt w1 (qstate st) (queue st)
                 (trace st ++ [EvLookupClaim claim (fetchClaimUrl p claim) (inr d)])))
    as (b1 & qs1 & Hcs1).
  erewrite bind_Ok by exact Hcs1. cbn [world qstate queue trace].
  cbn [handleClaimType]. rewrite Hfor. unfold handleIndexLocation. rewrite Hp, Hrec.
  erewrite bind_Ok by reflexivity. erewrite bind_Ok by reflexivity.
  subst calls found url.
  destruct (blobIndexLookup isvc w1 _ _ _ _) as [[e|idx] w2] eqn:Hfound; cbn [fst].
  - erewrite bind_Err
      by (unfold blobIndexLookup_Find; cbn [world]; rewrite Hfound; reflexivity).
    eexists; split; [reflexivity|]. cbn [trace queue]. by rewrite <- app_assoc.
  - erewrite bind_Ok
      by (unfold blobIndexLookup_Find; cbn [world]; rewrite Hfound; reflexivity).
    cbn [world qstate queue trace].
    match goal with |- context [bind (CmpSwap ?f ?g) _ ?s] =>
      destruct (CmpSwap_run f g s) as (b2 & qs2 & Hcs2) end.
    erewrite bind_Ok by exact Hcs2. cbn [world qstate queue trace].
    rewrite forEach_shards. eexists; split; [reflexivity|].
    cbn [trace queue]. by rewrite <- !app_assoc.
Qed.

(** Which jobs follow an index: exactly those of the shards that hold
    [forMh]. *)
Lemma shardJobs_spec (shards : gmap Multihash (gmap Multihash Position)) (forMh : Multihash) :
  (forall shardKey shardEntries,
      shards !! shardKey = Some shardEntries ->
      (In (mkjob shardKey None None equalsOrLocationJobType)
          (shardJobs (map_to_list shards) forMh)
       <-> Has shardEntries forMh = true))
  /\ (forall j', In j' (shardJobs (map_to_list shards) forMh) ->
        exists shardKey shardEntries,
          shards !! shardKey = Some shardEntries /\ Has shardEntries forMh = true
          /\ j' = mkjob shardKey None None equalsOrLocationJobType).
Proof.
  assert (Hin : forall j', In j' (shardJobs (map_to_list shards) forMh) <->
            exists shardKey shardEntries,
              shards !! shardKey = Some shardEntries /\ Has shardEntries forMh = true
              /\ j' = mkjob shardKey None None equalsOrLocationJobType).
  { intros j'. unfold shardJobs. rewrite in_map_iff. split.
    - intros ([k e] & <- & Hf). apply filter_In in Hf as [Hl Hh].
      apply list_elem_of_In, elem_of_map_to_list in Hl. by exists k, e.
    - intros (k & e & Hl & Hh & ->). exists (k, e). split; [done|].
      apply filter_In. split; [|done]. by apply list_elem_of_In, elem_of_map_to_list. }
  split; [|intros j' Hj'; by apply Hin].
  intros shardKey shardEntries Hl. rewrite Hin. split.
  - intros (k & e & Hl' & Hh & [= ->]). by rewrite Hl in Hl'; injection Hl' as ->.
  - intros Hh. by exists shardKey, shardEntries.
Qed.

(** C3, as the code has it: for a location commitment decoded from record
    [r], with [j.indexForMh] set, the handler calls the index lookup with
    the context id of [r], the record the job carries in
    [indexProviderRecord] (the record of the index claim that spawned the
    job), the retrieval URL derived from the provider of [r] and the shard,
    and the byte range of the block. *)
Theorem index_lookup_arguments (j : job) (r record : ProviderResult)
  (Shard : option Cid) (rng : option Range) (claim : Cid) (p : AddrInfo)
  (forMh : Multihash) (d : Delegation) (w1 : World) (st : St World) :
  Provider r = Some p ->
  indexForMh j = Some forMh ->
  indexProviderRecord j = Some record ->
  claimLookup isvc (world st) claim (fetchClaimUrl p claim) = (inr d, w1) ->
  let url := fetchRetrievalUrl p
               match Shard with Some c => c | None => NewCidV1 cid_Raw (mh j) end in
  exists spawned,
    trace (snd (handleProtocol isvc j enqueue r (LocationCommitmentMetadata Shard rng claim) st))
    = trace st
      ++ [EvLookupClaim claim (fetchClaimUrl p claim) (inr d);
          EvBlobFind (ContextID r) record url rng
            (fst (blobIndexLookup isvc w1 (ContextID r) record url rng))]
      ++ map EvSpawn spawned.
Proof.
  intros Hp Hfor Hrec Hclaim url.
  pose proof (handleProtocol_index_location j r record Shard rng claim p forMh d w1 st
                Hp Hfor Hrec Hclaim) as H.
  cbv zeta in H. fold url in H.
  destruct (fst (blobIndexLookup isvc w1 (ContextID r) record url rng)) as [e|idx].
  - destruct H as (st' & -> & Htr & _). exists []. cbn [snd map]. by rewrite app_nil_r.
  - destruct H as (st' & -> & Htr & _). eexists. cbn [snd]. exact Htr.
Qed.

(** C4: for an equals claim found on record [r] while handling job [j], the
    handler, once the claim is fetched, calls [spawn] once and does nothing
    else: with a job of type location and without an index, for the
    multihash of [equals] when that differs from [j.mh], and for the context
    id of [r] otherwise. With the walker's [spawn] that one job is queued. *)
Theorem equals_claim_spawns_location_job (j : job) (r : ProviderResult)
  (Equals claim : Cid) (p : AddrInfo) (d : Delegation) (w1 : World) (st : St World) :
  Provider r = Some p ->
  claimLookup isvc (world st) claim (fetchClaimUrl p claim) = (inr d, w1) ->
  let next :=
    mkjob (if decide (cid_hash Equals = mh j) then ContextID r else cid_hash Equals)
          None None locationJobType in
  (exists st1,
      trace st1 = trace st ++ [EvLookupClaim claim (fetchClaimUrl p claim) (inr d)]
      /\ queue st1 = queue st
      /\ forall spawn : job -> M World unit,
           handleProtocol isvc j spawn r (EqualsClaimMetadata Equals claim) st = spawn next st1)
  /\ exists st',
      handleProtocol isvc j enqueue r (EqualsClaimMetadata Equals claim) st = (Ok tt, st')
      /\ filter_spawns (trace st') = filter_spawns (trace st) ++ [next]
      /\ queue st' = queue st ++ [next].
Proof.
  intros Hp Hclaim next.
  assert (Hgen : exists st1,
      trace st1 = trace st ++ [EvLookupClaim claim (fetchClaimUrl p claim) (inr d)]
      /\ queue st1 = queue st
      /\ forall spawn : job -> M World unit,
           handleProtocol isvc j spawn r (EqualsClaimMetadata Equals claim) st = spawn next st1).
  { destruct (CmpSwap_run
                (fun qs => negb (bool_decide (is_Some (Claims (qr qs) !! claim))))
                (setClaim claim d)
                (mkSt w1 (qstate st) (queue st)
                   (trace st ++ [EvLookupClaim claim (fetchClaimUrl p claim) (inr d)])))
      as (b1 & qs1 & Hcs1).
    eexists. split; [|split]; [| |intros spawn].
    3: { unfold handleProtocol. cbn [GetClaimCid]. rewrite Hp.
         erewrite bind_Ok by reflexivity.
         erewrite bind_Ok by (unfold claimLookup_LookupClaim; rewrite Hclaim; reflexivity).
         erewrite bind_Ok by exact Hcs1. cbn [handleClaimType].
         rewrite bytes_differ. subst next.
         repeat case_decide; try contradiction; reflexivity. }
    all: reflexivity. }
  split; [exact Hgen|].
  destruct Hgen as (st1 & Htr & Hq & Hrun).
  rewrite (Hrun enqueue). unfold enqueue. eexists. split; [reflexivity|].
  cbn [trace queue]. rewrite filter_spawns_app, Htr, filter_spawns_app, Hq.
  cbn. by rewrite app_nil_r.
Qed.

(** C5: once the index of a location commitment is fetched, the handler
    spawns, for the shards the index enumerates, a job of type
    equals-or-location for a shard exactly when the shard holds
    [*j.indexForMh], and spawns nothing else. *)
Theorem shards_with_multihash_spawned (j : job) (r record : ProviderResult)
  (Shard : option Cid) (rng : option Range) (claim : Cid) (p : AddrInfo)
  (forMh : Multihash) (d : Delegation) (w1 w2 : World) (idx : ShardedDagIndexView)
  (st : St World) :
  Provider r = Some p ->
  indexForMh j = Some forMh ->
  indexProviderRecord j = Some record ->
  claimLookup isvc (world st) claim (fetchClaimUrl p claim) = (inr d, w1) ->
  blobIndexLookup isvc w1 (ContextID r) record
    (fetchRetrievalUrl p match Shard with Some c => c | None => NewCidV1 cid_Raw (mh j) end)
    rng = (inr idx, w2) ->
  exists st' spawned,
    handleProtocol isvc j enqueue r (LocationCommitmentMetadata Shard rng claim) st = (Ok tt, st')
    /\ queue st' = queue st ++ spawned
    /\ filter_spawns (trace st') = filter_spawns (trace st) ++ spawned
    /\ (forall shardKey shardEntries,
          Shards idx !! shardKey = Some shardEntries ->
          (In (mkjob shardKey None None equalsOrLocationJobType) spawned
           <-> Has shardEntries forMh = true))
    /\ (forall j', In j' spawned ->
          exists shardKey shardEntries,
            Shards idx !! shardKey = Some shardEntries /\ Has shardEntries forMh = true
            /\ j' = mkjob shardKey None None equalsOrLocationJobType).
Proof.
  intros Hp Hfor Hrec Hclaim Hfound.
  pose proof (handleProtocol_index_location j r record Shard rng claim p forMh d w1 st
                Hp Hfor Hrec Hclaim) as H.
  cbv zeta in H. rewrite Hfound in H. cbn [fst] in H.
  destruct H as (st' & Hrun & Htr & Hq).
  exists st', (shardJobs (map_to_list (Shards idx)) forMh).
  split; [exact Hrun|]. split; [exact Hq|]. split.
  - rewrite Htr, !filter_spawns_app, filter_spawns_map. reflexivity.
  - apply shardJobs_spec.
Qed.

(** C7: a protocol block without a claim cid is passed over: the handler
    returns no error for it and leaves the state, the queue and the trace of
    calls as they were, and the loop over the blocks of a record goes on as if
    such blocks were not there. *)
Theorem nonclaim_protocol_skipped (j : job) (spawn : job -> M World unit)
  (r : ProviderResult) (code : Code) (protocols : list Protocol) (st : St World) :
  handleProtocol isvc j spawn r (NonClaimProtocol code) st = (Ok tt, st)
  /\ forEach (NonClaimProtocol code :: protocols) (handleProtocol isvc j spawn r) st
     = forEach protocols (handleProtocol isvc j spawn r) st
  /\ forEach protocols (handleProtocol isvc j spawn r) st
     = forEach (List.filter (fun p => bool_decide (is_Some (GetClaimCid p))) protocols)
         (handleProtocol isvc j spawn r) st.
Proof.
  split; [reflexivity|]. split; [reflexivity|].
  revert st. induction protocols as [|p protocols IH]; intros st; [reflexivity|].
  destruct p; cbn [List.filter GetClaimCid]; try (apply IH).
  all: rewrite bool_decide_eq_true_2 by eauto; cbn [forEach]; unfold bind;
    destruct (handleProtocol isvc j spawn r _ st) as [[[]|e|] st1]; [apply IH | done | done].
Qed.

End handler_blocks.

Section handler_blocks_examples.
Import service fixtures.

Lemma index_lookup_arguments_witness :
  exists spawned,
    trace (snd (handleProtocol backend jobIndex enqueue recLocation
                  (LocationCommitmentMetadata None (Some (mkRange 7 None)) claim2)
                  (emptyState 0)))
    = [EvLookupClaim claim2 zeroURL (inr (b "delegation"));
       EvBlobFind (b "ctx2") recIndex zeroURL (Some (mkRange 7 None)) (inr shardIndex)]
      ++ map EvSpawn spawned.
Proof.
  apply (index_lookup_arguments backend jobIndex recLocation recIndex None
           (Some (mkRange 7 None)) claim2 peer2 H1 (b "delegation") 1 (emptyState 0));
    reflexivity.
Defined.

(** C3 as stated fails: the record handed to the index lookup is the one the
    job carries, here the record of the index claim, not the record the
    location commitment was decoded from. *)
Lemma index_lookup_not_with_decoded_record :
  trace (snd (handleProtocol backend jobIndex enqueue recLocation
                (LocationCommitmentMetadata None (Some (mkRange 7 None)) claim2)
                (emptyState 0))) !! 1%nat
  = Some (EvBlobFind (ContextID recLocation) recIndex zeroURL (Some (mkRange 7 None))
            (inr shardIndex))
  /\ recIndex <> recLocation.
Proof. split; [by vm_compute | discriminate]. Qed.

Lemma equals_claim_spawns_location_job_witness :
  exists st',
    handleProtocol backend jobEquals enqueue recEquals
      (EqualsClaimMetadata (NewCidV1 cid_Raw H3) claim3) (emptyState 0) = (Ok tt, st')
    /\ filter_spawns (trace st') = [mkjob H3 None None locationJobType]
    /\ queue st' = [mkjob H3 None None locationJobType].
Proof.
  apply (equals_claim_spawns_location_job backend jobEquals recEquals
           (NewCidV1 cid_Raw H3) claim3 peer1 (b "delegation") 1 (emptyState 0));
    reflexivity.
Defined.

Lemma shards_with_multihash_spawned_witness :
  exists st' spawned,
    handleProtocol backend jobIndex enqueue recLocation
      (LocationCommitmentMetadata None (Some (mkRange 7 None)) claim2) (emptyState 0)
    = (Ok tt, st')
    /\ queue st' = queue (emptyState 0) ++ spawned
    /\ filter_spawns (trace st') = filter_spawns (trace (emptyState 0)) ++ spawned
    /\ (forall shardKey shardEntries,
          Shards shardIndex !! shardKey = Some shardEntries ->
          (In (mkjob shardKey None None equalsOrLocationJobType) spawned
           <-> Has shardEntries H1 = true))
    /\ (forall j', In j' spawned ->
          exists shardKey shardEntries,
            Shards shardIndex !! shardKey = Some shardEntries /\ Has shardEntries H1 = true
            /\ j' = mkjob shardKey None None equalsOrLocationJobType).
Proof.
  apply (shards_with_multihash_spawned backend jobIndex recLocation recIndex None
           (Some (mkRange 7 None)) claim2 peer2 H1 (b "delegation") 1 2 shardIndex
           (emptyState 0)); reflexivity.
Defined.

(** On that index the handler spawns the job for [S1] and none for [S2]. *)
Example shards_scenario :
  queue (snd (handleProtocol backend jobIndex enqueue recLocation
                (LocationCommitmentMetadata None (Some (mkRange 7 None)) claim2)
                (emptyState 0)))
  = [mkjob S1 None None equalsOrLocationJobType].
Proof. by vm_compute. Qed.

(** The claim found on the equals side: the job spawned is for the context
    id of the record. *)
Example equals_via_contextID_scenario :
  queue (snd (handleProtocol backend (mkjob H3 None None standardJobType) enqueue recEquals
                (EqualsClaimMetadata (NewCidV1 cid_Raw H3) claim3) (emptyState 0)))
  = [mkjob H1 None None locationJobType].
Proof. by vm_compute. Qed.

End handler_blocks_examples.

(** ** Reasoning about handler code *)

Section triples.
Import service.

Context {World : Type}.

Lemma triple_ret {A} (a : A) (P : St World -> Prop) QE QP :
  triple P (ret a) (fun _ => P) QE QP.
Proof. intros st HP. exact HP. Qed.

Lemma triple_bind {A B} (m : M World A) (k : A -> M World B)
  (P : St World -> Prop) (R : A -> St World -> Prop) QO QE QP :
  triple P m R QE QP ->
  (forall a, triple (R a) (k a) QO QE QP) ->
  triple P (bind m k) QO QE QP.
Proof.
  intros Hm Hk st HP. specialize (Hm st HP). unfold bind.
  destruct (m st) as [[a|e|] st']; [by apply Hk | exact Hm | exact Hm].
Qed.

Lemma triple_weaken {A} (m : M World A) (P P' : St World -> Prop)
  (QO QO' : A -> St World -> Prop) (QE QE' : error -> St World -> Prop)
  (QP QP' : St World -> Prop) :
  triple P m QO QE QP ->
  (forall st, P' st -> P st) ->
  (forall a st, QO a st -> QO' a st) ->
  (forall e st, QE e st -> QE' e st) ->
  (forall st, QP st -> QP' st) ->
  triple P' m QO' QE' QP'.
Proof.
  intros Hm HP HO HE HPn st HP'. specialize (Hm st (HP st HP')).
  destruct (m st) as [[a|e|] st']; eauto.
Qed.

Lemma triple_forEach {A} (l : list A) (body : A -> M World unit)
  (I : St World -> Prop) QE QP :
  (forall x, triple I (body x) (fun _ => I) QE QP) ->
  triple I (forEach l body) (fun _ => I) QE QP.
Proof.
  intros Hbody. induction l as [|x l IH]; cbn [forEach].
  - apply triple_ret.
  - eapply triple_bind; [apply Hbody | intros ?; exact IH].
Qed.

Lemma triple_deref {A} (p : option A) (P : St World -> Prop) QE :
  triple P (deref p) (fun _ => P) QE P.
Proof. intros st HP. unfold deref. by destruct p. Qed.

Lemma triple_Access (P : St World -> Prop) QE QP :
  triple P Access (fun qs st => P st /\ qs = qstate st) QE QP.
Proof. intros st HP. by split. Qed.

End triples.

(** ** Deduplication of jobs within a query *)

Section dedup.
Import service.

Context {World : Type}.
Variable md : MetadataPkg.
Variable isvc : IndexingService World.

Lemma find_jobs_app (t1 t2 : list event) :
  find_jobs (t1 ++ t2) = find_jobs t1 ++ find_jobs t2.
Proof. apply omap_app. Qed.

(** A call that is not a [Find], recorded after a step on the world. *)
Lemma steady_log (st0 st : St World) (w : World) (jobs : list job) (ev : event) :
  find_jobs [ev] = [] ->
  steady st0 st ->
  steady st0 (mkSt w (qstate st) jobs (trace st ++ [ev])).
Proof.
  intros Hev [Hf Hv]. split; cbn [trace qstate]; [|exact Hv].
  by rewrite find_jobs_app, Hev, app_nil_r.
Qed.

Lemma keeps_bind {A B} st0 (m : M World A) (k : A -> M World B) :
  keeps st0 m -> (forall a, keeps st0 (k a)) -> keeps st0 (bind m k).
Proof. intros Hm Hk. eapply triple_bind; [exact Hm | exact Hk]. Qed.

Lemma keeps_ret {A} st0 (a : A) : keeps (World := World) st0 (ret a).
Proof. apply triple_ret. Qed.

Lemma keeps_forEach {A} st0 (l : list A) (body : A -> M World unit) :
  (forall x, keeps st0 (body x)) -> keeps st0 (forEach l body).
Proof. intros H. by apply triple_forEach. Qed.

Lemma keeps_deref {A} st0 (p : option A) : keeps (World := World) st0 (deref p).
Proof. apply triple_deref. Qed.

Lemma keeps_enqueue st0 (j : job) : keeps (World := World) st0 (enqueue j).
Proof. intros st H. unfold enqueue. by apply steady_log. Qed.

Lemma keeps_LookupClaim st0 (c : Cid) (u : URL) :
  keeps st0 (claimLookup_LookupClaim isvc c u).
Proof.
  intros st H. unfold claimLookup_LookupClaim.
  destruct (claimLookup isvc (world st) c u) as [[e|d] w]; cbn; by apply steady_log.
Qed.

Lemma keeps_blobFind st0 (ctx : list byte) (r : ProviderResult) (u : URL) (rng : option Range) :
  keeps st0 (blobIndexLookup_Find isvc ctx r u rng).
Proof.
  intros st H. unfold blobIndexLookup_Find.
  destruct (blobIndexLookup isvc (world st) ctx r u rng) as [[e|d] w]; cbn; by apply steady_log.
Qed.

Lemma keeps_Unmarshal st0 (data : list byte) :
  keeps (World := World) st0 (md_UnmarshalBinary md data).
Proof.
  intros st H. unfold md_UnmarshalBinary.
  destruct (UnmarshalBinary md data) as [e|ps]; cbn; by apply steady_log.
Qed.

Lemma keeps_CmpSwap st0 (willChange : queryState -> bool) (change : queryState -> queryState) :
  (forall qs, visits (change qs) = visits qs) ->
  keeps (World := World) st0 (CmpSwap willChange change).
Proof.
  intros Hch st [Hf Hv]. unfold CmpSwap.
  destruct (willChange (qstate st)); [|by split].
  split; cbn [trace qstate]; [exact Hf | by rewrite Hch].
Qed.

Lemma keeps_handleProtocol st0 (j : job) (r : ProviderResult) (p : Protocol) :
  keeps st0 (handleProtocol isvc j enqueue r p).
Proof.
  unfold handleProtocol. destruct (GetClaimCid p) as [c|]; [|apply keeps_ret].
  apply keeps_bind; [apply keeps_deref|]. intros provider.
  apply keeps_bind; [apply keeps_LookupClaim|]. intros claim.
  apply keeps_bind; [by apply keeps_CmpSwap|]. intros _.
  destruct p as [eqc ?|idx ?|Shard rng ?|? ?|?]; cbn [handleClaimType];
    try apply keeps_ret; try apply keeps_enqueue.
  - destruct (negb _); apply keeps_enqueue.
  - destruct (indexForMh j) as [forMh|]; [|apply keeps_ret].
    unfold handleIndexLocation.
    apply keeps_bind; [apply keeps_deref|]. intros provider'.
    apply keeps_bind; [apply keeps_deref|]. intros record.
    apply keeps_bind; [apply keeps_blobFind|]. intros index.
    apply keeps_bind; [by apply keeps_CmpSwap|]. intros _.
    apply keeps_forEach. intros [shard entries].
    destruct (Has entries forMh); [apply keeps_enqueue | apply keeps_ret].
Qed.

Lemma keeps_handleResult st0 (j : job) (r : ProviderResult) :
  keeps st0 (handleResult md isvc j enqueue r).
Proof.
  unfold handleResult. apply keeps_bind; [apply keeps_Unmarshal|].
  intros ps. apply keeps_forEach. intros p. apply keeps_handleProtocol.
Qed.

(** One run of the handler: a job whose key is marked leaves everything as
    it is; any other job has its key marked and makes one [Find] call. *)
Lemma jobHandler_visits (j : job) (st : St World) :
  let st' := snd (jobHandler md isvc j enqueue st) in
  (key j ∈ visits (qstate st) /\ st' = st)
  \/ ((key j ∉ visits (qstate st))
      /\ find_jobs (trace st') = find_jobs (trace st) ++ [j]
      /\ visits (qstate st') = {[key j]} ∪ visits (qstate st)).
Proof.
  cbv zeta. unfold jobHandler.
  destruct (decide (key j ∈ visits (qstate st))) as [Hin|Hnin].
  - left. split; [exact Hin|].
    erewrite bind_Ok by (apply CmpSwap_false; cbv beta; by case_bool_decide).
    reflexivity.
  - right. split; [exact Hnin|].
    erewrite bind_Ok by (apply CmpSwap_true; cbv beta; by case_bool_decide).
    cbn [negb].
    erewrite bind_Ok by reflexivity. cbn [qstate].
    set (st1 := mkSt (world st) (visit (key j) (qstate st)) (queue st) (trace st)).
    match goal with |- context [providerIndex_Find isvc j ?k] => set (qk := k) end.
    unfold bind, providerIndex_Find.
    destruct (providerIndex isvc (world st1) qk) as [[e|results] w] eqn:Hfind.
    + cbn. rewrite find_jobs_app. by split.
    + cbn [lift_result].
      set (st2 := mkSt w (qstate st1) (queue st1) (trace st1 ++ [EvFind j qk (inr results)])).
      pose proof (keeps_forEach st2 results _ (keeps_handleResult st2 j) st2) as H.
      assert (Hst2 : steady st2 st2) by (by split).
      specialize (H Hst2).
      assert (Hsteady : steady st2 (snd (forEach results (handleResult md isvc j enqueue) st2))).
      { destruct (forEach results _ st2) as [[[]|e|] st3]; exact H. }
      destruct Hsteady as [Hf Hv]. rewrite Hf, Hv.
      subst st2 st1. cbn [trace qstate visits visit]. rewrite find_jobs_app. by split.
Qed.






End dedup.

(** ** Errors and partial results *)

Section errors.
Import service.

Context {World : Type}.
Variable md : MetadataPkg.
Variable isvc : IndexingService World.

Lemma accumulated_snoc (tr : list event) (ev : event) :
  accumulated (tr ++ [ev]) = record_event (accumulated tr) ev.
Proof. unfold accumulated. by rewrite fold_left_app. Qed.

Lemma no_error_snoc (tr : list event) (ev : event) :
  no_error tr -> event_error ev = None -> no_error (tr ++ [ev]).
Proof. intros Htr Hev. apply Forall_app. split; [exact Htr | by constructor]. Qed.

(** A call that succeeds and adds nothing to the result. *)
Lemma walk_inv_log (st : St World) (w : World) (jobs : list job) (ev : event) :
  event_error ev = None ->
  (forall r, record_event r ev = r) ->
  walk_inv st ->
  walk_inv (mkSt w (qstate st) jobs (trace st ++ [ev])).
Proof.
  intros Hev Hrec [Hne Hacc]. split; cbn [trace qstate].
  - by apply no_error_snoc.
  - by rewrite accumulated_snoc, Hrec.
Qed.

(** A call that returns an error. *)
Lemma failed_with_log (st : St World) (w : World) (jobs : list job) (ev : event) (e : error) :
  event_error ev = Some e ->
  walk_inv st ->
  failed_with e (mkSt w (qstate st) jobs (trace st ++ [ev])).
Proof. intros Hev [Hne Hacc]. by exists (trace st), ev. Qed.

Lemma sound_bind {A B} (m : M World A) (k : A -> M World B) :
  sound m -> (forall a, sound (k a)) -> sound (bind m k).
Proof. intros Hm Hk. eapply triple_bind; [exact Hm | exact Hk]. Qed.

Lemma sound_ret {A} (a : A) : sound (World := World) (ret a).
Proof. apply triple_ret. Qed.

Lemma sound_forEach {A} (l : list A) (body : A -> M World unit) :
  (forall x, sound (body x)) -> sound (forEach l body).
Proof. intros H. by apply triple_forEach. Qed.

Lemma sound_deref {A} (p : option A) : sound (World := World) (deref p).
Proof. apply triple_deref. Qed.

Lemma sound_enqueue (j : job) : sound (World := World) (enqueue j).
Proof. intros st H. unfold enqueue. by apply walk_inv_log. Qed.

Lemma sound_visit (k : jobKey) (willChange : queryState -> bool) :
  sound (World := World) (CmpSwap willChange (visit k)).
Proof. intros st H. unfold CmpSwap. by destruct (willChange (qstate st)). Qed.

Lemma sound_Find (j : job) (qk : QueryKey) : sound (providerIndex_Find isvc j qk).
Proof.
  intros st H. unfold providerIndex_Find.
  destruct (providerIndex isvc (world st) qk) as [[e|rs] w]; cbn [lift_result].
  - by apply failed_with_log.
  - by apply walk_inv_log.
Qed.

Lemma sound_Unmarshal (data : list byte) :
  sound (World := World) (md_UnmarshalBinary md data).
Proof.
  intros st H. unfold md_UnmarshalBinary.
  destruct (UnmarshalBinary md data) as [e|ps]; cbn [lift_result].
  - by apply failed_with_log.
  - by apply walk_inv_log.
Qed.

Lemma LookupClaim_pending (c : Cid) (u : URL) :
  triple walk_inv (claimLookup_LookupClaim isvc c u)
    (fun claim => pending (EvLookupClaim c u (inr claim))) failed_with walk_inv.
Proof.
  intros st H. unfold claimLookup_LookupClaim.
  destruct (claimLookup isvc (world st) c u) as [[e|claim] w]; cbn [lift_result].
  - by apply failed_with_log.
  - destruct H as [Hne Hacc]. by exists (trace st).
Qed.

Lemma setClaim_recorded (c : Cid) (u : URL) (claim : Delegation) :
  triple (pending (World := World) (EvLookupClaim c u (inr claim)))
    (CmpSwap (fun qs => negb (bool_decide (is_Some (Claims (qr qs) !! c))))
             (setClaim c claim))
    (fun _ => walk_inv) failed_with walk_inv.
Proof.
  intros st (before & Htr & Hne & Hacc). unfold CmpSwap, walk_inv. cbv beta.
  case_bool_decide as Hc; cbn [negb trace qstate]; rewrite Htr, accumulated_snoc;
    (split; [by apply no_error_snoc|]); cbn [record_event]; rewrite <- Hacc.
  - by rewrite bool_decide_eq_true_2.
  - rewrite bool_decide_eq_false_2 by exact Hc. reflexivity.
Qed.

Lemma blobFind_pending (ctx : list byte) (r : ProviderResult) (u : URL) (rng : option Range) :
  triple walk_inv (blobIndexLookup_Find isvc ctx r u rng)
    (fun index => pending (EvBlobFind ctx r u rng (inr index))) failed_with walk_inv.
Proof.
  intros st H. unfold blobIndexLookup_Find.
  destruct (blobIndexLookup isvc (world st) ctx r u rng) as [[e|index] w]; cbn [lift_result].
  - by apply failed_with_log.
  - destruct H as [Hne Hacc]. by exists (trace st).
Qed.

Lemma setIndex_recorded (ctx : list byte) (r : ProviderResult) (u : URL)
  (rng : option Range) (index : ShardedDagIndexView) :
  triple (pending (World := World) (EvBlobFind ctx r u rng (inr index)))
    (CmpSwap (fun qs => negb (bool_decide (is_Some (Indexes (qr qs) !! ctx))))
             (setIndex ctx index))
    (fun _ => walk_inv) failed_with walk_inv.
Proof.
  intros st (before & Htr & Hne & Hacc). unfold CmpSwap, walk_inv. cbv beta.
  case_bool_decide as Hc; cbn [negb trace qstate]; rewrite Htr, accumulated_snoc;
    (split; [by apply no_error_snoc|]); cbn [record_event]; rewrite <- Hacc.
  - by rewrite bool_decide_eq_true_2.
  - rewrite bool_decide_eq_false_2 by exact Hc. reflexivity.
Qed.

Lemma sound_handleProtocol (j : job) (r : ProviderResult) (p : Protocol) :
  sound (handleProtocol isvc j enqueue r p).
Proof.
  unfold handleProtocol. destruct (GetClaimCid p) as [c|]; [|apply sound_ret].
  apply sound_bind; [apply sound_deref|]. intros provider.
  eapply triple_bind; [apply LookupClaim_pending|]. intros claim.
  eapply triple_bind; [apply setClaim_recorded|]. intros ?.
  destruct p as [eqc ?|idx ?|Shard rng ?|? ?|?]; cbn [handleClaimType];
    try apply sound_ret; try apply sound_enqueue.
  - destruct (negb _); apply sound_enqueue.
  - destruct (indexForMh j) as [forMh|]; [|apply sound_ret].
    unfold handleIndexLocation.
    apply sound_bind; [apply sound_deref|]. intros provider'.
    apply sound_bind; [apply sound_deref|]. intros record.
    eapply triple_bind; [apply blobFind_pending|]. intros index.
    eapply triple_bind; [apply setIndex_recorded|]. intros ?.
    apply sound_forEach. intros [shard entries].
    destruct (Has entries forMh); [apply sound_enqueue | apply sound_ret].
Qed.

Lemma sound_handleResult (j : job) (r : ProviderResult) :
  sound (handleResult md isvc j enqueue r).
Proof.
  unfold handleResult. apply sound_bind; [apply sound_Unmarshal|].
  intros ps. apply sound_forEach. intros p. apply sound_handleProtocol.
Qed.

Lemma sound_jobHandler (j : job) : sound (jobHandler md isvc j enqueue).
Proof.
  unfold jobHandler. apply sound_bind; [apply sound_visit|]. intros fresh.
  destruct (negb fresh); [apply sound_ret|].
  apply sound_bind; [intros st H; exact H|]. intros qs.
  apply sound_bind; [apply sound_Find|]. intros results.
  apply sound_forEach. intros r. apply sound_handleResult.
Qed.

(** How a walk ends: in a failure the state is the one the failing handler
    left; otherwise no call has returned an error. *)
Lemma SingleWalker_sound (fuel : nat) (st : St World) :
  walk_inv st ->
  match SingleWalker fuel (jobHandler md isvc) st with
  | (Failed e, st') => failed_with e st'
  | (_, st') => walk_inv st'
  end.
Proof.
  revert st. induction fuel as [|fuel IH]; intros st Hinv.
  - cbn [SingleWalker]. by destruct (queue st).
  - destruct (queue st) as [|j rest] eqn:Hq; [cbn [SingleWalker]; by rewrite Hq|].
    rewrite (SingleWalker_step fuel _ st j rest Hq).
    pose proof (sound_jobHandler j (mkSt (world st) (qstate st) rest (trace st)) Hinv) as H.
    destruct (jobHandler md isvc j enqueue _) as [[[]|e|] st1]; [by apply IH | exact H | exact H].
Qed.

Lemma initialState_walk_inv (query : Query) (w : World) :
  walk_inv (initialState query w).
Proof. split; [constructor | reflexivity]. Qed.


End errors.

Section query_examples.
Import service fixtures.


(** The query for [H1, H1] on the working backend: [Find] is called once
    for [H1], once for the index and once for the shard that holds [H1]. *)
Example dedup_scenario :
  map mh (find_jobs (trace (snd (Query_walk mdpkg backend 10
                                   (mkQuery [H1; H1] (mkMatch [])) 0))))
  = [H1; HI; S1].
Proof. by vm_compute. Qed.

(** The failing query returns the claim fetched before the failure. *)
Example partial_result_scenario :
  exists result,
    IndexingService_Query mdpkg failingBackend 5 (mkQuery [H1; H1] (mkMatch [])) 0
    = Returns result (Some "claim not found"%string)
    /\ Claims result !! claim1 = Some (b "delegation")
    /\ Claims result !! claim2 = None.
Proof. eexists. split; [by vm_compute|]. split; by vm_compute. Qed.

End query_examples.

(** * Further properties *)

(** ** Equality of provider results is an equivalence *)

Section provider_results_equivalence.
Import providerresults.

Variable AddrInfo_String : AddrInfo -> string.

Lemma bytes_Equal_sym (x y : list byte) : bytes_Equal x y = bytes_Equal y x.
Proof. unfold bytes_Equal. apply bool_decide_ext. split; by intros ->. Qed.

Lemma equalProvider_sym (x y : option AddrInfo) :
  equalProvider AddrInfo_String x y = equalProvider AddrInfo_String y x.
Proof. destruct x, y; simpl; [apply String.eqb_sym | done | done | done]. Qed.

(** [Equals] does not depend on the order of its arguments. *)
Theorem Equals_sym (x y : ProviderResult) :
  Equals AddrInfo_String x y = Equals AddrInfo_String y x.
Proof.
  unfold Equals.
  by rewrite (bytes_Equal_sym (ContextID x)), (bytes_Equal_sym (Metadata x)),
    (equalProvider_sym (Provider x)).
Qed.

(** Results equal to a common third are equal. *)
Theorem Equals_trans (x y z : ProviderResult) :
  Equals AddrInfo_String x y = true ->
  Equals AddrInfo_String y z = true ->
  Equals AddrInfo_String x z = true.
Proof.
  unfold Equals. rewrite !andb_true_iff, !bytes_Equal_true, !equalProvider_true.
  intros [[Hc1 Hm1] Hp1] [[Hc2 Hm2] Hp2].
  split; [split; congruence|].
  destruct Hp1 as [[Hx Hy] | (px & py & Hx & Hy & Hs1)];
    destruct Hp2 as [[Hy' Hz] | (py' & pz & Hy' & Hz & Hs2)]; try congruence.
  - by left.
  - right. exists px, pz. repeat split; [done | done |]. congruence.
Qed.

End provider_results_equivalence.

Lemma Equals_trans_witness :
  providerresults.Equals fixtures.String_id fixtures.resA fixtures.resA = true.
Proof.
  apply (Equals_trans fixtures.String_id fixtures.resA fixtures.resB fixtures.resA);
    reflexivity.
Defined.

(** ** The redis provider store *)

Section redis_provider_store.
Import redis.

Variable MarshalCBOR : list ProviderResult -> list byte * option error.
Variable UnmarshalCBOR : list byte -> error + list ProviderResult.

(** Different multihashes are stored under different redis keys. *)
Lemma multihashKeyString_inj (k1 k2 : Multihash) :
  multihashKeyString k1 = multihashKeyString k2 <-> k1 = k2.
Proof. apply string_of_bytes_inj. Qed.

(** What is read back from redis is what [UnmarshalCBOR] makes of the very
    bytes [MarshalCBOR] produced: the passage through a redis string loses
    nothing, and the error of [MarshalCBOR] is handed on. *)
Lemma redis_string_passage (records : list ProviderResult) :
  providerResultsFromRedis UnmarshalCBOR (fst (providerResultsToRedis MarshalCBOR records))
  = UnmarshalCBOR (fst (MarshalCBOR records))
  /\ snd (providerResultsToRedis MarshalCBOR records) = snd (MarshalCBOR records).
Proof.
  unfold providerResultsFromRedis, providerResultsToRedis, string_of_bytes.
  destruct (MarshalCBOR records) as [bytes err]. cbn [fst snd].
  by rewrite list_byte_of_string_of_list_byte.
Qed.

(** The conversions of the redis provider store lose nothing: two
    multihashes have the same redis key only if they are the same, and
    reading back what was written hands [UnmarshalCBOR] the very bytes
    [MarshalCBOR] produced, with the error of [MarshalCBOR] handed on. *)
Theorem redis_store_lossless (k1 k2 : Multihash) (records : list ProviderResult) :
  (multihashKeyString k1 = multihashKeyString k2 <-> k1 = k2)
  /\ providerResultsFromRedis UnmarshalCBOR (fst (providerResultsToRedis MarshalCBOR records))
     = UnmarshalCBOR (fst (MarshalCBOR records))
  /\ snd (providerResultsToRedis MarshalCBOR records) = snd (MarshalCBOR records).
Proof. split; [apply multihashKeyString_inj | apply redis_string_passage]. Qed.

End redis_provider_store.

(** ** The mock redis client *)

Section mock_redis.
Import redis_test.

(** A string set under a key is what [Get] returns for that key, whatever
    was there before, and the other keys read as before. *)
Theorem Set_then_Get (m : MockRedis) (k v : string) (expiration : Duration) :
  errSet m = None ->
  errGet m = None ->
  exists m',
    Set_ m k (VString v) expiration = Some (mkCmd "" None, m')
    /\ Get m' k = mkCmd v None
    /\ data m' !! k = Some (mkredisValue v expiration)
    /\ forall k', k' <> k -> Get m' k' = Get m k'.
Proof.
  intros HS HG. unfold Set_. rewrite HS. eexists. split; [reflexivity|].
  unfold Get. cbn [errGet data]. rewrite HG, lookup_insert_eq. split; [done|].
  split; [done|]. intros k' Hk'. by rewrite lookup_insert_ne.
Qed.

(** With no error injected, [Get] returns [goredis.Nil] exactly for the keys
    that are not set, and the value with no error for the others. *)
Theorem Get_missing (m : MockRedis) (k : string) :
  errGet m = None ->
  (cmd_err (Get m k) = Some goredis_Nil <-> data m !! k = None)
  /\ forall val, data m !! k = Some val -> Get m k = mkCmd (rv_data val) None.
Proof.
  intros HG. unfold Get. rewrite HG. destruct (data m !! k) as [val|]; cbn.
  - split; [split; discriminate|]. by intros ? [= <-].
  - split; [done | discriminate].
Qed.

(** An injected error is all the client returns: [Get] reads nothing, [Set]
    writes nothing (and does not look at the value), [Expire] and [Persist]
    change nothing. *)
Lemma injected_errors (m : MockRedis) (err : error) (k : string) (value : Value)
  (expiration : Duration) :
  Get (WithErrorOnGet (Some err) m) k = mkCmd "" (Some err)
  /\ Set_ (WithErrorOnSet (Some err) m) k value expiration
     = Some (mkCmd "" (Some err), WithErrorOnSet (Some err) m)
  /\ Expire (WithErrorOnSetExpiration (Some err) m) k expiration
     = (mkCmd false (Some err), WithErrorOnSetExpiration (Some err) m)
  /\ Persist (WithErrorOnSetExpiration (Some err) m) k
     = (mkCmd false (Some err), WithErrorOnSetExpiration (Some err) m).
Proof. done. Qed.

(** [Expire] reports true exactly when the key is set with another
    expiration; afterwards a set key has the new expiration and its old
    value, the other keys are untouched, every [Get] reads as before, and
    a second [Expire] with the same expiration reports false. *)
Theorem Expire_spec (m : MockRedis) (k : string) (expiration : Duration) :
  errSetExpiration m = None ->
  let '(cmd, m') := Expire m k expiration in
  cmd_err cmd = None
  /\ (cmd_val cmd = true <->
      exists val, data m !! k = Some val /\ expires val <> expiration)
  /\ data m' !! k = (fun val => mkredisValue (rv_data val) expiration) <$> data m !! k
  /\ (forall k', k' <> k -> data m' !! k' = data m !! k')
  /\ (forall k', Get m' k' = Get m k')
  /\ Expire m' k expiration = (mkCmd false None, m').
Proof.
  intros HE. unfold Expire at 1. rewrite HE.
  destruct (data m !! k) as [val|] eqn:Hk.
  - case_bool_decide as Hexp.
    + split; [done|]. split; [split; [by eauto | done]|].
      cbn [data]. rewrite lookup_insert_eq. split; [done|].
      split; [intros k' Hk'; by rewrite lookup_insert_ne|]. split.
      * intros k'. unfold Get. cbn [errGet data].
        destruct (errGet m); [done|].
        destruct (decide (k' = k)) as [->|Hne].
        -- by rewrite lookup_insert_eq, Hk.
        -- by rewrite lookup_insert_ne.
      * unfold Expire. cbn [errSetExpiration data]. rewrite ?HE, lookup_insert_eq.
        cbn [expires]. by rewrite bool_decide_eq_false_2 by (by intros H; apply H).
    + split; [done|]. split; [split; [done | intros (val' & [= <-] & Hne); done]|].
      rewrite Hk. cbn. split; [by destruct val; cbn in *; subst|].
      split; [done|]. split; [done|].
      unfold Expire. rewrite HE, Hk. by rewrite bool_decide_eq_false_2 by (by intros H; apply H).
  - split; [done|]. split; [split; [done | intros (val' & [=] & _)]|].
    rewrite Hk. cbn. split; [done|]. split; [done|]. split; [done|].
    unfold Expire. by rewrite HE, Hk.
Qed.

(** [Persist] is [Expire] with no expiration: a key set with an expiration
    and then persisted holds its value with expiration 0. *)
Theorem Persist_is_Expire_zero (d : gmap string redisValue) (k v : string)
  (expiration : Duration) :
  (forall m k', Persist m k' = Expire m k' 0%Z)
  /\ exists m1,
       Set_ (mkMockRedis d None None None) k (VString v) expiration
       = Some (mkCmd "" None, m1)
       /\ data (snd (Persist m1 k)) !! k = Some (mkredisValue v 0%Z)
       /\ Get (snd (Persist m1 k)) k = mkCmd v None.
Proof.
  split; [done|]. eexists. split; [reflexivity|].
  unfold Persist, Get. cbn [errSetExpiration errGet data]. rewrite lookup_insert_eq.
  cbn [expires rv_data]. case_bool_decide as Hexp; cbn [snd data errGet].
  - by rewrite lookup_insert_eq.
  - rewrite lookup_insert_eq. by rewrite Hexp.
Qed.

End mock_redis.

Lemma Set_then_Get_witness :
  exists m',
    redis_test.Set_ fixtures.mock1 "key1" (redis_test.VString "value2") 0%Z
    = Some (redis_test.mkCmd ""%string None, m')
    /\ redis_test.Get m' "key1" = redis_test.mkCmd "value2"%string None
    /\ redis_test.data m' !! "key1"%string = Some (redis_test.mkredisValue "value2" 0%Z)
    /\ forall k', k' <> "key1"%string -> redis_test.Get m' k' = redis_test.Get fixtures.mock1 k'.
Proof. apply (Set_then_Get fixtures.mock1 "key1" "value2" 0%Z); reflexivity. Defined.

Lemma Get_missing_witness :
  (redis_test.cmd_err (redis_test.Get fixtures.mock1 "key5") = Some redis_test.goredis_Nil
   <-> redis_test.data fixtures.mock1 !! "key5"%string = None)
  /\ forall val, redis_test.data fixtures.mock1 !! "key5"%string = Some val ->
       redis_test.Get fixtures.mock1 "key5" = redis_test.mkCmd (redis_test.rv_data val) None.
Proof. apply (Get_missing fixtures.mock1 "key5"); reflexivity. Defined.

Lemma Expire_spec_witness :
  redis_test.cmd_val (fst (redis_test.Expire fixtures.mock1 "key1" 9%Z)) = true
  /\ redis_test.data (snd (redis_test.Expire fixtures.mock1 "key1" 9%Z)) !! "key1"%string
     = Some (redis_test.mkredisValue "value1" 9%Z).
Proof.
  pose proof (Expire_spec fixtures.mock1 "key1" 9%Z eq_refl) as H.
  destruct (redis_test.Expire fixtures.mock1 "key1" 9%Z) as [cmd m'] eqn:HE.
  destruct H as (_ & Hval & Hdata & _). split.
  - apply Hval. eexists. split; [reflexivity | discriminate].
  - exact Hdata.
Defined.

(** ** More on the entries iterator *)

Section advert_store_more.
Import publisher consumers.

Context {Link Key : Type}.
Variable Link_String : Link -> string.
Variable asCID : Link -> Cid.
Variable NewKey : string -> Key.
Variable ChildString : Key -> string -> Key.
Variable ds_Get : Key -> error + list byte.
Variable BytesToEntryChunk : Cid -> list byte -> error + EntryChunk Link.

Local Abbreviation Entries := (Entries Link_String asCID NewKey ChildString ds_Get BytesToEntryChunk).
Local Abbreviation chain := (chain Link_String asCID NewKey ChildString ds_Get BytesToEntryChunk).

Lemma yieldEntries_goes_on {S} (ents : list Multihash) (yield : Yield S) (s : S) :
  (forall d e s', snd (yield d e s') = true) ->
  snd (yieldEntries ents yield s) = true.
Proof.
  intros Hon. revert s. induction ents as [|d ents IH]; intros s; cbn; [done|].
  specialize (Hon d None s). destruct (yield d None s) as [s' more].
  cbn in Hon. subst more. apply IH.
Qed.

(** The iterator has no guard against a chain that loops: where a chunk
    links back to itself, a consumer that never stops is fed for ever,
    whatever the number of rounds allowed. *)
Theorem Entries_loop_never_ends {S} (c : Link) (v : list byte) (ent : EntryChunk Link)
  (yield : Yield S) (s : S) (fuel : nat) :
  ds_Get (ChildString (linksCachePath NewKey) (Link_String c)) = inr v ->
  BytesToEntryChunk (asCID c) v = inr ent ->
  Next ent = Some c ->
  (forall d e s', snd (yield d e s') = true) ->
  Entries fuel (Some c) yield s = None.
Proof.
  intros Hget Hdec Hnext Hon. unfold publisher.Entries.
  revert s. induction fuel as [|fuel IH]; intros s; [done|].
  cbn [Entries_from]. rewrite Hget, Hdec.
  pose proof (yieldEntries_goes_on (Entries_ ent) yield s Hon) as Hmore.
  destruct (yieldEntries (Entries_ ent) yield s) as [s' more]. cbn in Hmore. subst more.
  rewrite Hnext. apply IH.
Qed.

Lemma feed_upto (n : nat) (items acc : list (Multihash * option error)) :
  length acc < n ->
  feed items (upto n) acc = acc ++ take (n - length acc) items.
Proof.
  revert acc. induction items as [|[d e] items IH]; intros acc Hlen; cbn [feed].
  - by rewrite take_nil, app_nil_r.
  - unfold upto at 1. case_bool_decide as Hmore.
    + rewrite IH by (rewrite length_app; cbn; lia).
      rewrite length_app. cbn [length].
      replace (n - length acc) with (Datatypes.S (n - (length acc + 1))) by lia.
      cbn [take]. by rewrite <- app_assoc.
    + replace (n - length acc) with 1 by lia. cbn [take]. by rewrite take_0.
Qed.

(** A range loop over the entries that breaks after [n] pairs has received
    the first [n] pairs of the chain, and the iterator has returned. *)
Theorem Entries_upto root chunks fin (n fuel : nat) :
  chain root chunks fin ->
  length chunks < fuel ->
  0 < n ->
  Entries fuel root (upto n) [] = Some (take n (yields_of chunks fin)).
Proof.
  intros Hch Hfuel Hn.
  rewrite (Entries_feed _ _ _ _ _ _ _ _ _ Hch) by exact Hfuel.
  rewrite feed_upto by (cbn; lia). cbn [length app]. by rewrite Nat.sub_0_r.
Qed.

End advert_store_more.

Lemma Entries_loop_never_ends_witness :
  publisher.Entries fixtures.Link_String fixtures.asCID fixtures.NewKey fixtures.ChildString
    fixtures.ds_Get_loop fixtures.BytesToEntryChunk_loop 50 (Some "c9"%string)
    publisher.collect []
  = None.
Proof.
  apply (Entries_loop_never_ends fixtures.Link_String fixtures.asCID fixtures.NewKey
           fixtures.ChildString fixtures.ds_Get_loop fixtures.BytesToEntryChunk_loop
           "c9"%string (fixtures.b "loop") fixtures.chunkLoop); reflexivity.
Defined.

Lemma Entries_upto_witness :
  publisher.Entries fixtures.Link_String fixtures.asCID fixtures.NewKey fixtures.ChildString
    fixtures.ds_Get fixtures.BytesToEntryChunk 3 (Some "c1"%string) (consumers.upto 2) []
  = Some [(fixtures.b "h1", None); (fixtures.b "h2", None)].
Proof.
  refine (Entries_upto fixtures.Link_String fixtures.asCID fixtures.NewKey
    fixtures.ChildString fixtures.ds_Get fixtures.BytesToEntryChunk
    (Some "c1"%string) [fixtures.chunk1; fixtures.chunk2] (Some "datastore: key not found"%string)
    2 3 _ _ _).
  - eapply publisher.chain_cons; [reflexivity | reflexivity |].
    eapply publisher.chain_cons; [reflexivity | reflexivity |].
    apply publisher.chain_get_fails. reflexivity.
  - simpl. lia.
  - lia.
Defined.

(** ** More on the handling of one block *)

Section handler_blocks_more.
Import service walk.

Context {World : Type}.
Variable md : MetadataPkg.
Variable isvc : IndexingService World.

(** Up to its type switch the handler of a claim block fetches the claim
    and records it. *)
Lemma handleProtocol_fetched (j : job) (spawn : job -> M World unit) (r : ProviderResult)
  (p : Protocol) (c : Cid) (prov : AddrInfo) (d : Delegation) (w1 : World) (st : St World) :
  GetClaimCid p = Some c ->
  Provider r = Some prov ->
  claimLookup isvc (world st) c (fetchClaimUrl prov c) = (inr d, w1) ->
  handleProtocol isvc j spawn r p st
  = handleClaimType isvc j spawn r p (claim_recorded st w1 c (fetchClaimUrl prov c) d).
Proof.
  intros Hc Hp Hl. unfold handleProtocol. rewrite Hc, Hp.
  erewrite bind_Ok by reflexivity.
  erewrite bind_Ok by (unfold claimLookup_LookupClaim; rewrite Hl; reflexivity).
  unfold claim_recorded. case_bool_decide as Hin.
  - erewrite bind_Ok
      by (apply CmpSwap_false; cbv beta; cbn [qstate]; by case_bool_decide).
    reflexivity.
  - erewrite bind_Ok
      by (apply CmpSwap_true; cbv beta; cbn [qstate]; by case_bool_decide).
    reflexivity.
Qed.

(** For an index claim found on record [r] while handling job [j], the
    handler, once the claim is fetched, calls [spawn] once and does nothing
    else: with a job of type equals-or-location for the multihash of the
    index, that carries [j.mh] as the multihash the index is for and [r] as
    the record of the index claim. *)
Theorem index_claim_spawns_index_job (j : job) (r : ProviderResult) (Index claim : Cid)
  (p : AddrInfo) (d : Delegation) (w1 : World) (st : St World)
  (spawn : job -> M World unit) :
  Provider r = Some p ->
  claimLookup isvc (world st) claim (fetchClaimUrl p claim) = (inr d, w1) ->
  handleProtocol isvc j spawn r (IndexClaimMetadata Index claim) st
  = spawn (mkjob (cid_hash Index) (Some (mh j)) (Some r) equalsOrLocationJobType)
      (claim_recorded st w1 claim (fetchClaimUrl p claim) d)
  /\ wf_job (mkjob (cid_hash Index) (Some (mh j)) (Some r) equalsOrLocationJobType).
Proof.
  intros Hp Hl. split; [|right; by eexists].
  by rewrite (handleProtocol_fetched j spawn r (IndexClaimMetadata Index claim)
                claim p d w1 st eq_refl Hp Hl).
Qed.

(** A location commitment met by a job that is not after an index ends
    there: the claim is looked up and recorded, nothing is spawned, no index
    is fetched, and the handler returns what the lookup returned. *)
Theorem location_commitment_terminal (j : job) (r : ProviderResult) (Shard : option Cid)
  (rng : option Range) (claim : Cid) (p : AddrInfo) (st : St World)
  (spawn : job -> M World unit) :
  indexForMh j = None ->
  Provider r = Some p ->
  let looked := claimLookup isvc (world st) claim (fetchClaimUrl p claim) in
  let out := handleProtocol isvc j spawn r (LocationCommitmentMetadata Shard rng claim) st in
  fst out = match fst looked with inl e => Err e | inr _ => Ok tt end
  /\ trace (snd out) = trace st ++ [EvLookupClaim claim (fetchClaimUrl p claim) (fst looked)]
  /\ queue (snd out) = queue st
  /\ world (snd out) = snd looked
  /\ Indexes (qr (qstate (snd out))) = Indexes (qr (qstate st)).
Proof.
  intros Hfor Hp looked out. subst looked out.
  destruct (claimLookup isvc (world st) claim (fetchClaimUrl p claim)) as [[e|d] w1] eqn:Hl.
  - unfold handleProtocol. cbn [GetClaimCid]. rewrite Hp.
    erewrite bind_Ok by reflexivity.
    erewrite bind_Err by (unfold claimLookup_LookupClaim; rewrite Hl; reflexivity).
    done.
  - rewrite (handleProtocol_fetched j spawn r (LocationCommitmentMetadata Shard rng claim)
               claim p d w1 st eq_refl Hp Hl).
    cbn [handleClaimType]. rewrite Hfor. unfold claim_recorded, ret. cbn.
    by case_bool_decide.
Qed.

(** A record without a provider makes the handler panic as soon as its
    metadata holds a block with a claim cid: the metadata is decoded, and the
    first such block dereferences the nil provider; no claim is looked up. *)
Theorem nil_provider_panics (j : job) (spawn : job -> M World unit) (r : ProviderResult)
  (ps : list Protocol) (st : St World) :
  Provider r = None ->
  UnmarshalBinary md (Metadata r) = inr ps ->
  Exists (fun p => is_Some (GetClaimCid p)) ps ->
  handleResult md isvc j spawn r st
  = (Panic, mkSt (world st) (qstate st) (queue st)
              (trace st ++ [EvUnmarshal (Metadata r) (inr ps)])).
Proof.
  intros Hp Hdec Hex. unfold handleResult.
  erewrite bind_Ok by (unfold md_UnmarshalBinary; rewrite Hdec; reflexivity).
  generalize (mkSt (world st) (qstate st) (queue st)
                (trace st ++ [EvUnmarshal (Metadata r) (inr ps)])).
  clear Hdec. induction Hex as [p ps [c Hc] | p ps Hex IH]; intros st1; cbn [forEach].
  - apply bind_Panic. unfold handleProtocol. rewrite Hc, Hp. reflexivity.
  - destruct (GetClaimCid p) as [c|] eqn:Hc.
    + apply bind_Panic. unfold handleProtocol. rewrite Hc, Hp. reflexivity.
    + erewrite bind_Ok by (unfold handleProtocol; rewrite Hc; reflexivity). apply IH.
Qed.

End handler_blocks_more.

Section handler_blocks_more_examples.
Import service fixtures.

Lemma index_claim_spawns_index_job_witness :
  handleProtocol backend (mkjob H1 None None standardJobType) enqueue recIndex
    (IndexClaimMetadata (NewCidV1 cid_Raw HI) claim1) (emptyState 0)
  = enqueue jobIndex (walk.claim_recorded (emptyState 0) 1 claim1 zeroURL (b "delegation")).
Proof.
  apply (index_claim_spawns_index_job backend (mkjob H1 None None standardJobType)
           recIndex (NewCidV1 cid_Raw HI) claim1 peer1 (b "delegation") 1 (emptyState 0)
           enqueue); reflexivity.
Defined.

Lemma location_commitment_terminal_witness :
  queue (snd (handleProtocol backend (mkjob HI None None locationJobType) enqueue recLocation
                (LocationCommitmentMetadata None (Some (mkRange 7 None)) claim2)
                (emptyState 0)))
  = [].
Proof.
  apply (location_commitment_terminal backend (mkjob HI None None locationJobType)
           recLocation None (Some (mkRange 7 None)) claim2 peer2 (emptyState 0) enqueue);
    reflexivity.
Defined.

Lemma nil_provider_panics_witness :
  fst (handleResult mdpkg backend (mkjob H1 None None standardJobType) enqueue recNoProvider
         (emptyState 0))
  = Panic.
Proof.
  rewrite (nil_provider_panics mdpkg backend (mkjob H1 None None standardJobType) enqueue
             recNoProvider
             [NonClaimProtocol 0x0900%N; IndexClaimMetadata (NewCidV1 cid_Raw HI) claim1]
             (emptyState 0)).
  - reflexivity.
  - reflexivity.
  - reflexivity.
  - apply Exists_cons_tl, Exists_cons_hd. by eexists.
Defined.

End handler_blocks_more_examples.

(** ** The jobs and the calls of a query *)

Section walk_jobs.
Import service walk.

Context {World : Type}.
Variable md : MetadataPkg.
Variable isvc : IndexingService World.

Lemma follows_refl (st : St World) : follows st st.
Proof.
  exists []. rewrite !app_nil_r. repeat split; try done; constructor.
Qed.

(** A call that is not a [Find] and spawns nothing. *)
Lemma follows_log (st0 st : St World) (w : World) (ev : event) :
  quiet ev -> filter_spawns [ev] = [] ->
  follows st0 st ->
  follows st0 (mkSt w (qstate st) (queue st) (trace st ++ [ev])).
Proof.
  intros Hq Hs (evs & Htr & Hquiet & Hqueue & Hshape & Hquery & Hvis).
  exists (evs ++ [ev]). cbn [trace queue qstate].
  rewrite filter_spawns_app, Hs, app_nil_r, Htr, app_assoc.
  repeat split; try done. apply Forall_app. split; [done | by constructor].
Qed.

Lemma follower_bind {A B} st0 (m : M World A) (k : A -> M World B) :
  follower st0 m -> (forall a, follower st0 (k a)) -> follower st0 (bind m k).
Proof. intros Hm Hk. eapply triple_bind; [exact Hm | exact Hk]. Qed.

Lemma follower_ret {A} st0 (a : A) : follower (World := World) st0 (ret a).
Proof. apply triple_ret. Qed.

Lemma follower_forEach {A} st0 (l : list A) (body : A -> M World unit) :
  (forall x, follower st0 (body x)) -> follower st0 (forEach l body).
Proof. intros H. by apply triple_forEach. Qed.

Lemma follower_deref {A} st0 (p : option A) : follower (World := World) st0 (deref p).
Proof. apply triple_deref. Qed.

Lemma follower_enqueue st0 (j : job) :
  spawn_shape j -> follower (World := World) st0 (enqueue j).
Proof.
  intros Hj st (evs & Htr & Hquiet & Hqueue & Hshape & Hquery & Hvis). unfold enqueue.
  exists (evs ++ [EvSpawn j]). cbn [trace queue qstate].
  rewrite filter_spawns_app, Htr, Hqueue, !app_assoc.
  change (filter_spawns [EvSpawn j]) with [j].
  split; [done|]. split; [apply Forall_app; split; [done | by repeat constructor]|].
  split; [done|]. split; [apply Forall_app; split; [done | by constructor]|].
  by split.
Qed.

Lemma follower_LookupClaim st0 (c : Cid) (u : URL) :
  follower st0 (claimLookup_LookupClaim isvc c u).
Proof.
  intros st H. unfold claimLookup_LookupClaim.
  destruct (claimLookup isvc (world st) c u) as [[e|d] w]; cbn; by apply follows_log.
Qed.

Lemma follower_blobFind st0 (ctx : list byte) (r : ProviderResult) (u : URL)
  (rng : option Range) :
  follower st0 (blobIndexLookup_Find isvc ctx r u rng).
Proof.
  intros st H. unfold blobIndexLookup_Find.
  destruct (blobIndexLookup isvc (world st) ctx r u rng) as [[e|d] w]; cbn;
    by apply follows_log.
Qed.

Lemma follower_Unmarshal st0 (data : list byte) :
  follower (World := World) st0 (md_UnmarshalBinary md data).
Proof.
  intros st H. unfold md_UnmarshalBinary.
  destruct (UnmarshalBinary md data) as [e|ps]; cbn; by apply follows_log.
Qed.

Lemma follower_CmpSwap st0 (willChange : queryState -> bool)
  (change : queryState -> queryState) :
  (forall qs, q (change qs) = q qs /\ visits (change qs) = visits qs) ->
  follower (World := World) st0 (CmpSwap willChange change).
Proof.
  intros Hch st (evs & Htr & Hquiet & Hqueue & Hshape & Hquery & Hvis). unfold CmpSwap.
  destruct (willChange (qstate st)); [|by exists evs].
  exists evs. cbn [trace queue qstate]. destruct (Hch (qstate st)) as [-> ->]. done.
Qed.

Lemma follower_handleProtocol st0 (j : job) (r : ProviderResult) (p : Protocol) :
  follower st0 (handleProtocol isvc j enqueue r p).
Proof.
  unfold handleProtocol. destruct (GetClaimCid p) as [c|]; [|apply follower_ret].
  apply follower_bind; [apply follower_deref|]. intros provider.
  apply follower_bind; [apply follower_LookupClaim|]. intros claim.
  apply follower_bind; [by apply follower_CmpSwap|]. intros ?.
  destruct p as [eqc ?|idx ?|Shard rng ?|? ?|?]; cbn [handleClaimType];
    try apply follower_ret.
  - destruct (negb _); apply follower_enqueue; (split; [by left | by left]).
  - apply follower_enqueue. split; [by right | right; by eexists].
  - destruct (indexForMh j) as [forMh|]; [|apply follower_ret].
    unfold handleIndexLocation.
    apply follower_bind; [apply follower_deref|]. intros provider'.
    apply follower_bind; [apply follower_deref|]. intros record.
    apply follower_bind; [apply follower_blobFind|]. intros index.
    apply follower_bind; [by apply follower_CmpSwap|]. intros ?.
    apply follower_forEach. intros [shard entries].
    destruct (Has entries forMh); [|apply follower_ret].
    apply follower_enqueue. split; [by right | by left].
Qed.

Lemma follower_handleResult st0 (j : job) (r : ProviderResult) :
  follower st0 (handleResult md isvc j enqueue r).
Proof.
  unfold handleResult. apply follower_bind; [apply follower_Unmarshal|].
  intros ps. apply follower_forEach. intros p. apply follower_handleProtocol.
Qed.

(** A job whose key is visited is passed over, whatever [spawn] is. *)
Lemma jobHandler_visited (j : job) (spawn : job -> M World unit) (st : St World) :
  key j ∈ visits (qstate st) -> jobHandler md isvc j spawn st = (Ok tt, st).
Proof.
  intros Hin. unfold jobHandler.
  erewrite bind_Ok by (apply CmpSwap_false; cbv beta; by case_bool_decide).
  reflexivity.
Qed.

(** One run of the handler, by its calls: none for a job whose key is
    visited; otherwise one [Find], with the key of the job, and after it
    calls that are no [Find], with the jobs spawned queued. *)
Lemma jobHandler_calls (j : job) (st : St World) :
  let st' := snd (jobHandler md isvc j enqueue st) in
  st' = st
  \/ exists res evs,
       trace st' = trace st ++ EvFind j (find_key md (q (qstate st)) j) res :: evs
       /\ Forall quiet evs
       /\ queue st' = queue st ++ filter_spawns evs
       /\ Forall spawn_shape (filter_spawns evs)
       /\ q (qstate st') = q (qstate st).
Proof.
  cbv zeta. destruct (decide (key j ∈ visits (qstate st))) as [Hin|Hnin].
  - left. by rewrite jobHandler_visited.
  - right. unfold jobHandler.
    erewrite bind_Ok by (apply CmpSwap_true; cbv beta; by case_bool_decide).
    cbn [negb]. erewrite bind_Ok by reflexivity. cbn [qstate q visit].
    set (st1 := mkSt (world st) (visit (key j) (qstate st)) (queue st) (trace st)).
    fold (find_key md (q (qstate st)) j).
    set (qk := find_key md (q (qstate st)) j).
    unfold bind, providerIndex_Find.
    destruct (providerIndex isvc (world st1) qk) as [[e|results] w] eqn:Hfind.
    + exists (inl e), []. cbn. rewrite app_nil_r. repeat split; try done; constructor.
    + cbn [lift_result].
      set (st2 := mkSt w (qstate st1) (queue st1) (trace st1 ++ [EvFind j qk (inr results)])).
      pose proof (follower_forEach st2 results _ (follower_handleResult st2 j) st2
                    (follows_refl st2)) as H.
      assert (Hf : follows st2 (snd (forEach results (handleResult md isvc j enqueue) st2))).
      { destruct (forEach results _ st2) as [[[]|e|] st3]; exact H. }
      destruct Hf as (evs & Htr & Hquiet & Hqueue & Hshape & Hquery & _).
      exists (inr results), evs. rewrite Htr, Hqueue, Hquery.
      subst st2 st1. cbn [trace queue qstate q visit]. by rewrite <- app_assoc.
Qed.

Lemma jobHandler_jobs_ok (query : Query) (j : job) (st : St World) :
  runnable j ->
  jobs_ok md query st ->
  jobs_ok md query (snd (jobHandler md isvc j enqueue st)).
Proof.
  intros Hj (Hq & Hfind & Hsp & Hqueue).
  destruct (jobHandler_calls j st) as [-> | (res & evs & Htr & Hquiet & Hqu & Hshape & Hq')];
    [done|].
  unfold jobs_ok. rewrite Htr, Hqu, Hq', Hq. split; [done|]. split; [|split].
  - apply Forall_app. split; [done|]. constructor; [by split|].
    eapply Forall_impl; [exact Hquiet|]. by intros [].
  - rewrite filter_spawns_app. apply Forall_app. split; [done|]. exact Hshape.
  - apply Forall_app. split; [done|]. eapply Forall_impl; [exact Hshape|].
    intros j' [[Ht|Ht] Hwf]; (split; [|done]); unfold known_jobType; rewrite Ht;
      [right; by left | right; by right].
Qed.

Lemma SingleWalker_jobs_ok (query : Query) (fuel : nat) (st : St World) :
  jobs_ok md query st ->
  jobs_ok md query (snd (SingleWalker fuel (jobHandler md isvc) st)).
Proof.
  revert st. induction fuel as [|fuel IH]; intros st Hok.
  - cbn [SingleWalker]. by destruct (queue st).
  - destruct (queue st) as [|j rest] eqn:Hqu; [cbn [SingleWalker]; by rewrite Hqu|].
    rewrite (SingleWalker_step fuel _ st j rest Hqu).
    destruct Hok as (Hq & Hfind & Hsp & Hqueue). rewrite Hqu in Hqueue.
    apply Forall_cons in Hqueue as [Hj Hrest].
    pose proof (jobHandler_jobs_ok query j (mkSt (world st) (qstate st) rest (trace st)) Hj
                  (conj Hq (conj Hfind (conj Hsp Hrest)))) as H.
    destruct (jobHandler md isvc j enqueue _) as [[[]|e|] st1]; cbn [snd] in *;
      [by apply IH | exact H | exact H].
Qed.

Lemma initialState_jobs_ok (query : Query) (w : World) :
  jobs_ok md query (initialState query w).
Proof.
  repeat split; try constructor. unfold initialState, initialJobs. cbn [queue].
  apply Forall_forall. intros j Hj. apply list_elem_of_In, in_map_iff in Hj as (m & <- & _).
  split; [by left | by left].
Qed.

(** Every [ProviderIndex.Find] call of a query is made with the multihash
    of its job, the subjects of the query and the target claims of the job's
    type, and the job is of one of the three job types. *)
Theorem Find_called_with_job_key (fuel : nat) (query : Query) (w : World)
  (j : job) (qk : QueryKey) (res : error + list ProviderResult) :
  In (EvFind j qk res) (trace (snd (Query_walk md isvc fuel query w))) ->
  Hash qk = mh j
  /\ Spaces qk = Subject (Match_ query)
  /\ TargetClaims qk = targetClaims_at md (j_jobType j)
  /\ known_jobType (j_jobType j).
Proof.
  intros Hin.
  destruct (SingleWalker_jobs_ok query fuel _ (initialState_jobs_ok query w))
    as (_ & Hfind & _).
  rewrite Forall_forall in Hfind. apply list_elem_of_In in Hin.
  destruct (Hfind _ Hin) as [-> [Hk _]]. done.
Qed.

(** Every job a query spawns is of type location or equals-or-location, and
    carries the record of an index claim whenever it is after an index; the
    standard jobs are those of the hashes of the query. *)
Theorem spawned_jobs_shape (fuel : nat) (query : Query) (w : World) (j : job) :
  In (EvSpawn j) (trace (snd (Query_walk md isvc fuel query w))) ->
  (j_jobType j = locationJobType \/ j_jobType j = equalsOrLocationJobType)
  /\ (indexForMh j = None \/ is_Some (indexProviderRecord j)).
Proof.
  intros Hin.
  destruct (SingleWalker_jobs_ok query fuel _ (initialState_jobs_ok query w))
    as (_ & _ & Hsp & _).
  rewrite Forall_forall in Hsp. apply Hsp.
  unfold filter_spawns. apply list_elem_of_omap. exists (EvSpawn j).
  split; [by apply list_elem_of_In | done].
Qed.

End walk_jobs.

(** ** Panics *)

Section walk_panics.
Import service walk.

Context {World : Type}.
Variable md : MetadataPkg.
Variable isvc : IndexingService World.

Lemma safe_bind {A B} (R : A -> Prop) (R' : B -> Prop) (m : M World A) (k : A -> M World B) :
  safe R m -> (forall a, R a -> safe R' (k a)) -> safe R' (bind m k).
Proof.
  intros Hm Hk st _. specialize (Hm st I). unfold bind.
  destruct (m st) as [[a|e|] st1]; [|done|done]. by apply (Hk a Hm st1).
Qed.

Lemma safe_ret {A} (R : A -> Prop) (a : A) : R a -> safe (World := World) R (ret a).
Proof. by intros Ha st _. Qed.

Lemma safe_forEach {A} (l : list A) (body : A -> M World unit) :
  (forall x, In x l -> safe (fun _ => True) (body x)) ->
  safe (fun _ => True) (forEach l body).
Proof.
  induction l as [|x l IH]; intros Hbody; cbn [forEach]; [by apply safe_ret|].
  eapply safe_bind; [apply Hbody; by left|]. intros _ _. apply IH.
  intros y Hy. apply Hbody. by right.
Qed.

Lemma safe_deref {A} (p : option A) :
  is_Some p -> safe (World := World) (fun _ => True) (deref p).
Proof. intros [a ->] st _. done. Qed.

Lemma safe_CmpSwap (willChange : queryState -> bool) (change : queryState -> queryState) :
  safe (World := World) (fun _ => True) (CmpSwap willChange change).
Proof. intros st _. unfold CmpSwap. by destruct (willChange (qstate st)). Qed.

Lemma safe_enqueue (j : job) : safe (World := World) (fun _ => True) (enqueue j).
Proof. by intros st _. Qed.

Lemma safe_LookupClaim (c : Cid) (u : URL) :
  safe (fun _ => True) (claimLookup_LookupClaim isvc c u).
Proof.
  intros st _. unfold claimLookup_LookupClaim.
  by destruct (claimLookup isvc (world st) c u) as [[e|d] w].
Qed.

Lemma safe_blobFind (ctx : list byte) (r : ProviderResult) (u : URL) (rng : option Range) :
  safe (fun _ => True) (blobIndexLookup_Find isvc ctx r u rng).
Proof.
  intros st _. unfold blobIndexLookup_Find.
  by destruct (blobIndexLookup isvc (world st) ctx r u rng) as [[e|d] w].
Qed.

Lemma safe_Unmarshal (data : list byte) :
  safe (World := World) (fun _ => True) (md_UnmarshalBinary md data).
Proof.
  intros st _. unfold md_UnmarshalBinary. by destruct (UnmarshalBinary md data).
Qed.

Lemma safe_Find (j : job) (qk : QueryKey) :
  providers_named isvc ->
  safe (Forall has_provider) (providerIndex_Find isvc j qk).
Proof.
  intros Hnamed st _. unfold providerIndex_Find.
  destruct (providerIndex isvc (world st) qk) as [[e|rs] w] eqn:Hf; [done|].
  cbn. by eapply Hnamed.
Qed.

Lemma safe_handleProtocol (j : job) (r : ProviderResult) (p : Protocol) :
  wf_job j -> has_provider r ->
  safe (fun _ => True) (handleProtocol isvc j enqueue r p).
Proof.
  intros Hj Hr. unfold handleProtocol.
  destruct (GetClaimCid p) as [c|]; [|by apply safe_ret].
  eapply safe_bind; [by apply safe_deref|]. intros provider _.
  eapply safe_bind; [apply safe_LookupClaim|]. intros claim _.
  eapply safe_bind; [apply safe_CmpSwap|]. intros ? _.
  destruct p as [eqc ?|idx ?|Shard rng ?|? ?|?]; cbn [handleClaimType];
    try (by apply safe_ret); try apply safe_enqueue.
  - destruct (negb _); apply safe_enqueue.
  - destruct (indexForMh j) as [forMh|] eqn:Hfor; [|by apply safe_ret].
    unfold handleIndexLocation.
    eapply safe_bind; [by apply safe_deref|]. intros provider' _.
    eapply safe_bind; [apply safe_deref; destruct Hj as [Hj|Hj]; [congruence | exact Hj]|].
    intros record _.
    eapply safe_bind; [apply safe_blobFind|]. intros index _.
    eapply safe_bind; [apply safe_CmpSwap|]. intros ? _.
    apply safe_forEach. intros [shard entries] _.
    destruct (Has entries forMh); [apply safe_enqueue | by apply safe_ret].
Qed.

Lemma safe_handleResult (j : job) (r : ProviderResult) :
  wf_job j -> has_provider r ->
  safe (fun _ => True) (handleResult md isvc j enqueue r).
Proof.
  intros Hj Hr. unfold handleResult.
  eapply safe_bind; [apply safe_Unmarshal|]. intros ps _.
  apply safe_forEach. intros p _. by apply safe_handleProtocol.
Qed.

Lemma safe_jobHandler (j : job) :
  providers_named isvc -> wf_job j ->
  safe (fun _ => True) (jobHandler md isvc j enqueue).
Proof.
  intros Hnamed Hj. unfold jobHandler.
  eapply safe_bind; [apply safe_CmpSwap|]. intros fresh _.
  destruct (negb fresh); [by apply safe_ret|].
  eapply (safe_bind (fun _ => True)); [by intros st _|]. intros qs _.
  eapply safe_bind; [by apply safe_Find|]. intros results Hres.
  apply safe_forEach. intros r Hr. apply safe_handleResult; [done|].
  rewrite Forall_forall in Hres. by apply Hres, list_elem_of_In.
Qed.

Lemma SingleWalker_no_panic (query : Query) (fuel : nat) (st : St World) :
  providers_named isvc ->
  jobs_ok md query st ->
  fst (SingleWalker fuel (jobHandler md isvc) st) <> Panicked.
Proof.
  intros Hnamed. revert st. induction fuel as [|fuel IH]; intros st Hok.
  - cbn [SingleWalker]. by destruct (queue st).
  - destruct (queue st) as [|j rest] eqn:Hqu; [cbn [SingleWalker]; by rewrite Hqu|].
    rewrite (SingleWalker_step fuel _ st j rest Hqu).
    destruct Hok as (Hq & Hfind & Hsp & Hqueue). rewrite Hqu in Hqueue.
    apply Forall_cons in Hqueue as [Hj Hrest].
    set (st0 := mkSt (world st) (qstate st) rest (trace st)).
    pose proof (jobHandler_jobs_ok md isvc query j st0 Hj
                  (conj Hq (conj Hfind (conj Hsp Hrest)))) as Hok1.
    pose proof (safe_jobHandler j Hnamed (proj2 Hj) st0 I) as Hsafe.
    destruct (jobHandler md isvc j enqueue st0) as [[[]|e|] st1]; cbn [snd fst] in *;
      [by apply IH | done | done].
Qed.

(** Where every record the provider index returns names its provider,
    [Query] does not panic: the jobs that fetch an index always carry the
    record the fetch dereferences. *)
Theorem Query_never_panics (fuel : nat) (query : Query) (w : World) :
  providers_named isvc ->
  IndexingService_Query md isvc fuel query w <> QueryPanics.
Proof.
  intros Hnamed. unfold IndexingService_Query.
  pose proof (SingleWalker_no_panic query fuel _ Hnamed (initialState_jobs_ok md query w)) as H.
  fold (Query_walk md isvc fuel query w) in H.
  by destruct (Query_walk md isvc fuel query w) as [[|e| |] st].
Qed.

End walk_panics.

(** ** Visited keys, and what the result holds *)

Section walk_results.
Import service walk.

Context {World : Type}.
Variable md : MetadataPkg.
Variable isvc : IndexingService World.

(** Once the handler has run for a job, with whatever outcome, a run for a
    job with the same key does nothing and returns nil, whatever [spawn]
    is. *)
Theorem handled_once (j j' : job) (spawn : job -> M World unit) (st : St World) :
  key j' = key j ->
  jobHandler md isvc j' spawn (snd (jobHandler md isvc j enqueue st))
  = (Ok tt, snd (jobHandler md isvc j enqueue st)).
Proof.
  intros Hk. apply jobHandler_visited. rewrite Hk.
  destruct (jobHandler_visits md isvc j st) as [[Hin ->] | (_ & _ & ->)]; [done|].
  apply elem_of_union_l. by apply elem_of_singleton.
Qed.

Lemma jobHandler_visits_exact (j : job) (st : St World) :
  visits (qstate st) = list_to_set (map key (find_jobs (trace st))) ->
  visits (qstate (snd (jobHandler md isvc j enqueue st)))
  = list_to_set (map key (find_jobs (trace (snd (jobHandler md isvc j enqueue st))))).
Proof.
  intros Hv.
  destruct (jobHandler_visits md isvc j st) as [[_ ->] | (_ & -> & ->)]; [done|].
  rewrite map_app, list_to_set_app_L, Hv. cbn [map list_to_set foldr].
  rewrite union_empty_r_L. apply (comm_L (∪)).
Qed.

Lemma SingleWalker_visits_exact (fuel : nat) (st : St World) :
  visits (qstate st) = list_to_set (map key (find_jobs (trace st))) ->
  visits (qstate (snd (SingleWalker fuel (jobHandler md isvc) st)))
  = list_to_set (map key (find_jobs (trace (snd (SingleWalker fuel (jobHandler md isvc) st))))).
Proof.
  revert st. induction fuel as [|fuel IH]; intros st Hv.
  - cbn [SingleWalker]. by destruct (queue st).
  - destruct (queue st) as [|j rest] eqn:Hqu; [cbn [SingleWalker]; by rewrite Hqu|].
    rewrite (SingleWalker_step fuel _ st j rest Hqu).
    pose proof (jobHandler_visits_exact j (mkSt (world st) (qstate st) rest (trace st)) Hv) as H.
    destruct (jobHandler md isvc j enqueue _) as [[[]|e|] st1]; cbn [snd] in *;
      [by apply IH | exact H | exact H].
Qed.

(** When a query ends, the visited keys are exactly the keys of the jobs
    that [ProviderIndex.Find] was called for. *)
Theorem visited_keys_are_find_keys (fuel : nat) (query : Query) (w : World) (k : jobKey) :
  k ∈ visits (qstate (snd (Query_walk md isvc fuel query w)))
  <-> exists j, In j (find_jobs (trace (snd (Query_walk md isvc fuel query w)))) /\ key j = k.
Proof.
  unfold Query_walk. rewrite SingleWalker_visits_exact by done.
  rewrite elem_of_list_to_set, list_elem_of_In, in_map_iff.
  split; intros (j & H1 & H2); exists j; by split.
Qed.

End walk_results.

Section walk_provenance.
Import service walk.

Context {World : Type}.
Variable md : MetadataPkg.
Variable isvc : IndexingService World.

Lemma record_event_error (r : QueryResult) (ev : event) (e : error) :
  event_error ev = Some e -> record_event r ev = r.
Proof. by destruct ev as [? ? []|? []|? ? []|? ? ? ? []|?]. Qed.

(** However a query ends, its result holds what its calls have accumulated. *)
Lemma Query_result_accumulated (fuel : nat) (query : Query) (w : World) :
  qr (qstate (snd (Query_walk md isvc fuel query w)))
  = accumulated (trace (snd (Query_walk md isvc fuel query w))).
Proof.
  pose proof (SingleWalker_sound md isvc fuel _ (initialState_walk_inv query w)) as H.
  fold (Query_walk md isvc fuel query w) in H.
  destruct (Query_walk md isvc fuel query w) as [[|e| |] st]; cbn [snd];
    try (by destruct H).
  destruct H as (before & ev & -> & Hev & _ & ->).
  by rewrite accumulated_snoc, (record_event_error _ _ _ Hev).
Qed.

Lemma claim_kept (tr : list event) (ev : event) (c : Cid) (d : Delegation) :
  Claims (accumulated tr) !! c = Some d ->
  Claims (accumulated (tr ++ [ev])) !! c = Some d.
Proof.
  intros H. rewrite accumulated_snoc.
  destruct ev as [| |c' u [e|d']|ctx r u rng [e|idx]|]; cbn [record_event]; try done.
  - case_bool_decide as Hc; [done|]. cbn [Claims].
    destruct (decide (c' = c)) as [->|Hne]; [|by rewrite lookup_insert_ne].
    exfalso. apply Hc. by eexists.
  - by case_bool_decide.
Qed.

Lemma claims_kept (tr more : list event) (c : Cid) (d : Delegation) :
  Claims (accumulated tr) !! c = Some d ->
  Claims (accumulated (tr ++ more)) !! c = Some d.
Proof.
  induction more as [|ev more IH] using rev_ind; intros H; [by rewrite app_nil_r|].
  rewrite app_assoc. by apply claim_kept, IH.
Qed.

Lemma claims_were_fetched (tr : list event) (c : Cid) (d : Delegation) :
  Claims (accumulated tr) !! c = Some d -> claim_fetched c d tr.
Proof.
  induction tr as [|ev tr IH] using rev_ind; [done|].
  rewrite accumulated_snoc. intros H.
  assert (Hold : Claims (accumulated tr) !! c = Some d -> claim_fetched c d (tr ++ [ev])).
  { intros H'. destruct (IH H') as [u Hu]. exists u. apply in_app_iff. by left. }
  destruct ev as [| |c' u [e|d']|ctx r u rng [e|idx]|]; cbn [record_event] in H;
    try (by apply Hold).
  - case_bool_decide as Hc; [by apply Hold|]. cbn [Claims] in H.
    destruct (decide (c' = c)) as [->|Hne].
    + rewrite lookup_insert_eq in H. injection H as ->.
      exists u. apply in_app_iff. right. by left.
    + rewrite lookup_insert_ne in H by done. by apply Hold.
  - case_bool_decide; by apply Hold.
Qed.

Lemma fetched_claims_held (tr : list event) (c : Cid) (d : Delegation) :
  claim_fetched c d tr -> is_Some (Claims (accumulated tr) !! c).
Proof.
  intros [u Hin]. apply in_split in Hin as (t1 & t2 & ->).
  replace (t1 ++ EvLookupClaim c u (inr d) :: t2)
    with ((t1 ++ [EvLookupClaim c u (inr d)]) ++ t2) by (by rewrite <- app_assoc).
  assert (H : is_Some (Claims (accumulated (t1 ++ [EvLookupClaim c u (inr d)])) !! c)).
  { rewrite accumulated_snoc. cbn [record_event]. case_bool_decide as Hc; [done|].
    cbn [Claims]. rewrite lookup_insert_eq. by eexists. }
  destruct H as [d0 H]. exists d0. by apply claims_kept.
Qed.

Lemma index_kept (tr : list event) (ev : event) (ctx : list byte) (idx : ShardedDagIndexView) :
  Indexes (accumulated tr) !! ctx = Some idx ->
  Indexes (accumulated (tr ++ [ev])) !! ctx = Some idx.
Proof.
  intros H. rewrite accumulated_snoc.
  destruct ev as [| |c' u [e|d']|ctx' r u rng [e|idx']|]; cbn [record_event]; try done.
  - by case_bool_decide.
  - case_bool_decide as Hc; [done|]. cbn [Indexes].
    destruct (decide (ctx' = ctx)) as [->|Hne]; [|by rewrite lookup_insert_ne].
    exfalso. apply Hc. by eexists.
Qed.

Lemma indexes_kept (tr more : list event) (ctx : list byte) (idx : ShardedDagIndexView) :
  Indexes (accumulated tr) !! ctx = Some idx ->
  Indexes (accumulated (tr ++ more)) !! ctx = Some idx.
Proof.
  induction more as [|ev more IH] using rev_ind; intros H; [by rewrite app_nil_r|].
  rewrite app_assoc. by apply index_kept, IH.
Qed.

Lemma indexes_were_fetched (tr : list event) (ctx : list byte) (idx : ShardedDagIndexView) :
  Indexes (accumulated tr) !! ctx = Some idx -> index_fetched ctx idx tr.
Proof.
  induction tr as [|ev tr IH] using rev_ind; [done|].
  rewrite accumulated_snoc. intros H.
  assert (Hold : Indexes (accumulated tr) !! ctx = Some idx ->
                 index_fetched ctx idx (tr ++ [ev])).
  { intros H'. destruct (IH H') as (r & u & rng & Hu). exists r, u, rng.
    apply in_app_iff. by left. }
  destruct ev as [| |c' u [e|d']|ctx' r u rng [e|idx']|]; cbn [record_event] in H;
    try (by apply Hold).
  - case_bool_decide; by apply Hold.
  - case_bool_decide as Hc; [by apply Hold|]. cbn [Indexes] in H.
    destruct (decide (ctx' = ctx)) as [->|Hne].
    + rewrite lookup_insert_eq in H. injection H as ->.
      exists r, u, rng. apply in_app_iff. right. by left.
    + rewrite lookup_insert_ne in H by done. by apply Hold.
Qed.

Lemma fetched_indexes_held (tr : list event) (ctx : list byte) (idx : ShardedDagIndexView) :
  index_fetched ctx idx tr -> is_Some (Indexes (accumulated tr) !! ctx).
Proof.
  intros (r & u & rng & Hin). apply in_split in Hin as (t1 & t2 & ->).
  replace (t1 ++ EvBlobFind ctx r u rng (inr idx) :: t2)
    with ((t1 ++ [EvBlobFind ctx r u rng (inr idx)]) ++ t2) by (by rewrite <- app_assoc).
  assert (H : is_Some (Indexes (accumulated (t1 ++ [EvBlobFind ctx r u rng (inr idx)])) !! ctx)).
  { rewrite accumulated_snoc. cbn [record_event]. case_bool_decide as Hc; [done|].
    cbn [Indexes]. rewrite lookup_insert_eq. by eexists. }
  destruct H as [i0 H]. exists i0. by apply indexes_kept.
Qed.

(** However a query ends, every claim in its result is one a [LookupClaim]
    of the query returned for that cid, and every cid a [LookupClaim] returned
    a claim for is in the result; likewise every index in the result was
    returned by an index lookup for that context id, and every context id an
    index was returned for is in the result. *)
Theorem result_holds_what_was_fetched (fuel : nat) (query : Query) (w : World) :
  let st := snd (Query_walk md isvc fuel query w) in
  (forall c d, Claims (qr (qstate st)) !! c = Some d -> claim_fetched c d (trace st))
  /\ (forall c d, claim_fetched c d (trace st) -> is_Some (Claims (qr (qstate st)) !! c))
  /\ (forall ctx idx, Indexes (qr (qstate st)) !! ctx = Some idx ->
        index_fetched ctx idx (trace st))
  /\ (forall ctx idx, index_fetched ctx idx (trace st) ->
        is_Some (Indexes (qr (qstate st)) !! ctx)).
Proof.
  cbv zeta. rewrite Query_result_accumulated.
  split; [apply claims_were_fetched|]. split; [apply fetched_claims_held|].
  split; [apply indexes_were_fetched | apply fetched_indexes_held].
Qed.

(** A claim is kept as first fetched: the result holds, for a cid, the
    claim the first successful [LookupClaim] for it returned, whatever later
    lookups of the same cid return. *)
Theorem first_claim_kept (fuel : nat) (query : Query) (w : World)
  (t1 t2 : list event) (c : Cid) (u : URL) (d : Delegation) :
  trace (snd (Query_walk md isvc fuel query w)) = t1 ++ EvLookupClaim c u (inr d) :: t2 ->
  (forall d', ~ claim_fetched c d' t1) ->
  Claims (qr (qstate (snd (Query_walk md isvc fuel query w)))) !! c = Some d.
Proof.
  intros Htr Hfirst. rewrite Query_result_accumulated, Htr.
  replace (t1 ++ EvLookupClaim c u (inr d) :: t2)
    with ((t1 ++ [EvLookupClaim c u (inr d)]) ++ t2) by (by rewrite <- app_assoc).
  apply claims_kept. rewrite accumulated_snoc. cbn [record_event].
  case_bool_decide as Hc.
  - destruct Hc as [d' Hd']. exfalso. by apply (Hfirst d'), claims_were_fetched.
  - cbn [Claims]. by rewrite lookup_insert_eq.
Qed.

End walk_provenance.

Section walk_examples.
Import service walk fixtures.

Lemma backend_providers_named : providers_named backend.
Proof.
  intros w qk rs w' [= <- _]. unfold findRecords.
  repeat case_bool_decide; repeat constructor; by eexists.
Defined.

Lemma Find_called_with_job_key_witness :
  Hash (mkQueryKey HI [] [0x3E0002%N; 0x3E0003%N]) = mh jobIndex
  /\ Spaces (mkQueryKey HI [] [0x3E0002%N; 0x3E0003%N]) = []
  /\ TargetClaims (mkQueryKey HI [] [0x3E0002%N; 0x3E0003%N])
     = targetClaims_at mdpkg (j_jobType jobIndex)
  /\ known_jobType (j_jobType jobIndex).
Proof.
  apply (Find_called_with_job_key mdpkg backend 10 (mkQuery [H1; H1] (mkMatch [])) 0
           jobIndex (mkQueryKey HI [] [0x3E0002%N; 0x3E0003%N]) (inr [recLocation])).
  vm_compute. do 4 right. left. reflexivity.
Defined.

Lemma spawned_jobs_shape_witness :
  (j_jobType jobIndex = locationJobType \/ j_jobType jobIndex = equalsOrLocationJobType)
  /\ (indexForMh jobIndex = None \/ is_Some (indexProviderRecord jobIndex)).
Proof.
  apply (spawned_jobs_shape mdpkg backend 10 (mkQuery [H1; H1] (mkMatch [])) 0 jobIndex).
  vm_compute. do 3 right. left. reflexivity.
Defined.

Lemma Query_never_panics_witness :
  IndexingService_Query mdpkg backend 10 (mkQuery [H1; H2] (mkMatch [])) 0 <> QueryPanics.
Proof. apply Query_never_panics. exact backend_providers_named. Defined.

(** Two jobs that differ in their multihashes and share a key: once the
    first is handled the second is passed over. *)
Lemma handled_once_witness :
  jobHandler mdpkg backend jobB enqueue (snd (jobHandler mdpkg backend jobA enqueue (emptyState 0)))
  = (Ok tt, snd (jobHandler mdpkg backend jobA enqueue (emptyState 0))).
Proof. apply (handled_once mdpkg backend jobA jobB enqueue (emptyState 0)). reflexivity. Defined.

Lemma first_claim_kept_witness :
  Claims (qr (qstate (snd (Query_walk mdpkg backend 10 (mkQuery [H1; H1] (mkMatch [])) 0))))
    !! claim1
  = Some (b "delegation").
Proof.
  apply (first_claim_kept mdpkg backend 10 (mkQuery [H1; H1] (mkMatch [])) 0
           (take 2 (trace (snd (Query_walk mdpkg backend 10 (mkQuery [H1; H1] (mkMatch [])) 0))))
           (drop 3 (trace (snd (Query_walk mdpkg backend 10 (mkQuery [H1; H1] (mkMatch [])) 0))))
           claim1 zeroURL (b "delegation")).
  - by vm_compute.
  - intros d' [u Hin]. vm_compute in Hin. destruct Hin as [Hin|[Hin|[]]]; discriminate Hin.
Defined.

End walk_examples.
